(** * gpuOwL command line: [Args] of args.h

    A shallow embedding of [struct Args] (its constructor, [logConfig] and
    [parse]) together with the properties of the parser that the
    specification relies on.

    Conventions.
    - A C++ [int] is a [Z] kept inside the signed 32-bit range; the places
      where the source computes with [int] are written with [wrap], the
      two's complement wrap-around.
    - [argv] is a [list string]; [argc] is its length.
    - [log(fmt, ...)] appends one formatted message to the Logger, which is
      a [list string] in emission order.
    - The OpenCL wrapper (clwrap.h) is seen through a record [Devices]. *)

From Stdlib Require Import ZArith List String Ascii Bool Lia.
From Stdlib Require Import DecimalString DecimalPos.
Import ListNotations.

Local Open Scope string_scope.
Local Open Scope list_scope.
Local Open Scope Z_scope.

(** ** Machine integers *)

Module Int.

Definition min_int : Z := - 2 ^ 31.
Definition max_int : Z := 2 ^ 31 - 1.
Definition modulus : Z := 2 ^ 32.

(** Two's complement reduction of a mathematical integer to [int]. *)
Definition wrap (z : Z) : Z := (z + 2 ^ 31) mod modulus - 2 ^ 31.

Definition in_range (z : Z) : Prop := min_int <= z <= max_int.

Definition min_long : Z := - 2 ^ 63.
Definition max_long : Z := 2 ^ 63 - 1.

(** Saturation to [long], as [strtol] does on overflow. *)
Definition clamp_long (z : Z) : Z := Z.max min_long (Z.min max_long z).

(** [int] arithmetic used by the parser. *)
Definition mul (a b : Z) : Z := wrap (a * b).
Definition sub (a b : Z) : Z := wrap (a - b).
(** [a % b] of C++: the remainder of the division truncated towards 0. *)
Definition rem (a b : Z) : Z := Z.rem a b.

End Int.

(** ** Text helpers *)

Definition nl : string := String (ascii_of_nat 10) EmptyString.
Definition dq : string := String (ascii_of_nat 34) EmptyString.

(** The conversion [%d] of printf. *)
Definition fmt_d (z : Z) : string := NilZero.string_of_int (Z.to_int z).

(** [strcmp(a, b) == 0]. *)
Definition streq (a b : string) : bool := String.eqb a b.

(** ** The C library's [atoi]

    [atoi(s)] is [(int) strtol(s, NULL, 10)]: leading white space is
    skipped, an optional sign is read, then the longest run of decimal
    digits; no digit at all gives 0.  [strtol] saturates at the bounds of
    [long] (64 bits) and the conversion to [int] keeps the low 32 bits. *)

Definition isspace (c : ascii) : bool :=
  let n := nat_of_ascii c in
  (Nat.eqb n 32 || (Nat.leb 9 n && Nat.leb n 13))%bool.

Definition digit_of (c : ascii) : option Z :=
  let n := nat_of_ascii c in
  if (Nat.leb 48 n && Nat.leb n 57)%bool then Some (Z.of_nat (n - 48)) else None.

Fixpoint skip_space (s : string) : string :=
  match s with
  | String c s' => if isspace c then skip_space s' else s
  | EmptyString => s
  end.

Fixpoint read_digits (s : string) (acc : Z) : Z :=
  match s with
  | String c s' =>
      match digit_of c with
      | Some d => read_digits s' (10 * acc + d)
      | None => acc
      end
  | EmptyString => acc
  end.

Definition strtol (s : string) : Z :=
  match skip_space s with
  | String c s' =>
      if Ascii.eqb c "-" then Int.clamp_long (- read_digits s' 0)
      else if Ascii.eqb c "+" then Int.clamp_long (read_digits s' 0)
      else Int.clamp_long (read_digits (String c s') 0)
  | EmptyString => 0
  end.

Definition atoi (s : string) : Z := Int.wrap (strtol s).

(** ** The device enumeration of clwrap.h *)

(** Modelled from the spec: clwrap.h ([getNumberOfDevices], [getDeviceIDs],
    [getDeviceInfo]) is not part of the sources at hand.  Following the
    DeviceEnumerator interface ([count], [list(maxCount)] of length at most
    [maxCount], [describe]), the available devices are given by the list of
    their descriptions, in enumeration order. *)
Record Devices : Type := mkDevices { available : list string }.

(** Modelled from the spec: [count() -> int]. *)
Definition getNumberOfDevices (dv : Devices) : Z :=
  Z.of_nat (List.length (available dv)).

(** Modelled from the spec: [list(maxCount)], a sequence of at most
    [maxCount] handles; [getDeviceInfo] then describes each of them. *)
Definition getDeviceIDs (dv : Devices) (size : nat) : list string :=
  firstn size (available dv).

(** ** [struct Args] *)

Record Args : Type := mkArgs {
  clArgs : string;
  uid : string;
  logStep : Z;
  saveStep : Z;
  checkStep : Z;
  device : Z;
  timeKernels : bool;
  selfTest : bool;
  useLegacy : bool;
  safe : bool
}.

Definition DEFAULT_LOGSTEP : Z := 20000.

(** The constructor [Args()]. *)
Definition Args_new : Args :=
  {| clArgs := EmptyString;
     uid := EmptyString;
     logStep := DEFAULT_LOGSTEP;
     saveStep := 0;
     checkStep := 0;
     device := -1;
     timeKernels := false;
     selfTest := false;
     useLegacy := false;
     safe := false |}.

(** Field updates. *)
Definition set_clArgs (v : string) (a : Args) : Args :=
  mkArgs v (uid a) (logStep a) (saveStep a) (checkStep a) (device a)
         (timeKernels a) (selfTest a) (useLegacy a) (safe a).
Definition set_uid (v : string) (a : Args) : Args :=
  mkArgs (clArgs a) v (logStep a) (saveStep a) (checkStep a) (device a)
         (timeKernels a) (selfTest a) (useLegacy a) (safe a).
Definition set_logStep (v : Z) (a : Args) : Args :=
  mkArgs (clArgs a) (uid a) v (saveStep a) (checkStep a) (device a)
         (timeKernels a) (selfTest a) (useLegacy a) (safe a).
Definition set_saveStep (v : Z) (a : Args) : Args :=
  mkArgs (clArgs a) (uid a) (logStep a) v (checkStep a) (device a)
         (timeKernels a) (selfTest a) (useLegacy a) (safe a).
Definition set_checkStep (v : Z) (a : Args) : Args :=
  mkArgs (clArgs a) (uid a) (logStep a) (saveStep a) v (device a)
         (timeKernels a) (selfTest a) (useLegacy a) (safe a).
Definition set_device (v : Z) (a : Args) : Args :=
  mkArgs (clArgs a) (uid a) (logStep a) (saveStep a) (checkStep a) v
         (timeKernels a) (selfTest a) (useLegacy a) (safe a).
Definition set_timeKernels (v : bool) (a : Args) : Args :=
  mkArgs (clArgs a) (uid a) (logStep a) (saveStep a) (checkStep a) (device a)
         v (selfTest a) (useLegacy a) (safe a).
Definition set_selfTest (v : bool) (a : Args) : Args :=
  mkArgs (clArgs a) (uid a) (logStep a) (saveStep a) (checkStep a) (device a)
         (timeKernels a) v (useLegacy a) (safe a).
Definition set_useLegacy (v : bool) (a : Args) : Args :=
  mkArgs (clArgs a) (uid a) (logStep a) (saveStep a) (checkStep a) (device a)
         (timeKernels a) (selfTest a) v (safe a).
Definition set_safe (v : bool) (a : Args) : Args :=
  mkArgs (clArgs a) (uid a) (logStep a) (saveStep a) (checkStep a) (device a)
         (timeKernels a) (selfTest a) (useLegacy a) v.

(** ** The Logger *)

Definition Log : Type := list string.

(** One call of [log]: the formatted message is appended. *)
Definition log (msg : string) (l : Log) : Log := l ++ [msg].

(** ** [Args::logConfig] *)

Definition config_line (a : Args) : string :=
  (let uidStr := if streq (uid a) EmptyString then EmptyString
                else " -uid " ++ uid a in
  let clStr := if streq (clArgs a) EmptyString then EmptyString
               else " -cl " ++ dq ++ clArgs a ++ dq in
  let tailStr :=
    uidStr
    ++ (if safe a then " -supersafe" else EmptyString)
    ++ clStr
    ++ (if selfTest a then " -selftest" else EmptyString)
    ++ (if timeKernels a then " -time kernels" else EmptyString)
    ++ (if useLegacy a then " -legacy" else EmptyString) in
  "Config: -logstep " ++ fmt_d (logStep a)
  ++ " -savestep " ++ fmt_d (saveStep a)
  ++ " -checkstep " ++ fmt_d (checkStep a) ++ tailStr ++ nl)%string.

Definition logConfig (a : Args) (l : Log) : Log := log (config_line a) l.

(** ** The messages of [Args::parse] *)

Module Msg.

(** The first [log] of the help branch; [%d] receives [logStep],
    [500 * logStep] and [10 * logStep], computed on [int]. *)
Definition options (a : Args) : string :=
  ("Command line options:" ++ nl
   ++ "-logstep  <N>     : to log every <N> iterations (default "
   ++ fmt_d (logStep a) ++ ")" ++ nl
   ++ "-savestep <N>     : to persist checkpoint every <N> iterations (default 500*logstep == "
   ++ fmt_d (Int.mul 500 (logStep a)) ++ ")" ++ nl
   ++ "-checkstep <N>    : do Jacobi-symbol check every <N> iterations (default 10*logstep == "
   ++ fmt_d (Int.mul 10 (logStep a)) ++ ")" ++ nl
   ++ "-uid user/machine : set UID: string to be prepended to the result line" ++ nl
   ++ "-supersafe        : use iterative double-check for reliable results on unreliable hardware" ++ nl
   ++ "-cl " ++ dq ++ "<OpenCL compiler options>" ++ dq ++ ", e.g. -cl "
   ++ dq ++ "-save-temps=tmp/ -O2" ++ dq ++ nl
   ++ "-selftest         : perform self tests from 'selftest.txt'" ++ nl
   ++ "                    Self-test mode does not load/save checkpoints, worktodo.txt or results.txt." ++ nl
   ++ "-time kernels     : to benchmark kernels (logstep must be > 1)" ++ nl
   ++ "-legacy           : use legacy kernels" ++ nl ++ nl
   ++ "-device <N>       : select specific device among:" ++ nl)%string.

(** [log("    %d : %s\n", i, info)]. *)
Definition device_line (i : Z) (info : string) : string :=
  ("    " ++ fmt_d i ++ " : " ++ info ++ nl)%string.

Definition files : string :=
  (nl ++ "Files used by gpuOwL:" ++ nl
   ++ "    - worktodo.txt : contains exponents to test " ++ dq ++ "Test=N" ++ dq
   ++ ", one per line" ++ nl
   ++ "    - results.txt : contains LL results" ++ nl
   ++ "    - cN.ll : the most recent checkpoint for exponent <N>; will resume from here" ++ nl
   ++ "    - tN.ll : the previous checkpoint, to be used if cN.ll is lost or corrupted" ++ nl
   ++ "    - bN.ll : a temporary checkpoint that is renamed to cN.ll once successfully written" ++ nl
   ++ "    - sN.iteration.residue.ll : a persistent checkpoint at the given iteration" ++ nl)%string.

Definition worktodo : string :=
  (nl ++ "The lines in worktodo.txt must be of one of these forms:" ++ nl
   ++ "Test=70100200" ++ nl
   ++ "Test=3181F68030F6BF3DCD32B77337D5EF6B,70100200,75,1" ++ nl
   ++ "DoubleCheck=3181F68030F6BF3DCD32B77337D5EF6B,70100200,75,1" ++ nl
   ++ "Test=0,70100200,0,0" ++ nl)%string.

Definition invalid (flag value : string) : string :=
  ("invalid " ++ flag ++ " '" ++ value ++ "'" ++ nl)%string.

(** What each value flag says it expects when its argument is missing. *)
Definition expected_N : string := "<N> argument".
Definition expected_uid : string := "userName/computerName".
Definition expected_cl : string := "options string to pass to CL compiler".

Definition expects (flag what : string) : string :=
  (flag ++ " expects " ++ what ++ nl)%string.

Definition time_expects : string := ("-time expects 'kernels'" ++ nl)%string.

Definition invalid_device (d nDevices : Z) : string :=
  ("invalid -device " ++ fmt_d d ++ " (must be between [0, "
   ++ fmt_d (Int.sub nDevices 1) ++ "]" ++ nl)%string.

Definition not_understood (arg : string) : string :=
  ("Argument '" ++ arg ++ "' not understood" ++ nl)%string.

Definition ignoring_time : string :=
  ("Ignoring time kernels because logStep == 1" ++ nl)%string.

End Msg.

(** ** [Args::parse]: the loop over [argv] *)

(** The body of [for (int i = 0; i < ndev; ++i)] in the help branch. *)
Fixpoint log_devices (i : Z) (infos : list string) (l : Log) : Log :=
  match infos with
  | [] => l
  | info :: rest => log_devices (i + 1) rest (log (Msg.device_line i info) l)
  end.

(** What the help branch writes: the options, one line for each of the
    at most 16 devices obtained from [getDeviceIDs(false, 16, devices)],
    then the two closing paragraphs. *)
Definition usage (dv : Devices) (a : Args) (l : Log) : Log :=
  let l := log (Msg.options a) l in
  let devices := getDeviceIDs dv 16 in
  let l := log_devices 0 devices l in
  let l := log Msg.files l in
  log Msg.worktodo l.

(** How the loop ends: it ran off the end of [argv] ([Done]), or one of its
    branches executed [return false] ([Stop]). *)
Inductive Scan : Type :=
| Done (a : Args) (l : Log)
| Stop (a : Args) (l : Log).

(** The loop [for (int i = 1; i < argc; ++i)], on the tokens from
    [argv[i]] on.  [i < argc - 1] holds exactly when a token follows
    [arg]; [argv[++i]] is that token, and the next iteration starts after
    it. *)
Fixpoint scan (dv : Devices) (args : list string) (a : Args) (l : Log) : Scan :=
  match args with
  | [] => Done a l
  | arg :: rest =>
      if (streq arg "-h" || streq arg "--help")%bool then
        Stop a (usage dv a l)
      else if streq arg "-logstep" then
        match rest with
        | v :: rest' =>
            let a := set_logStep (atoi v) a in
            if logStep a <=? 0 then Stop a (log (Msg.invalid "-logstep" v) l)
            else scan dv rest' a l
        | [] => Stop a (log (Msg.expects "-logstep" Msg.expected_N) l)
        end
      else if streq arg "-savestep" then
        match rest with
        | v :: rest' =>
            let a := set_saveStep (atoi v) a in
            if saveStep a <=? 0 then Stop a (log (Msg.invalid "-savestep" v) l)
            else scan dv rest' a l
        | [] => Stop a (log (Msg.expects "-savestep" Msg.expected_N) l)
        end
      else if streq arg "-checkstep" then
        match rest with
        | v :: rest' =>
            let a := set_checkStep (atoi v) a in
            if checkStep a <=? 0 then Stop a (log (Msg.invalid "-checkstep" v) l)
            else scan dv rest' a l
        | [] => Stop a (log (Msg.expects "-checkstep" Msg.expected_N) l)
        end
      else if streq arg "-uid" then
        match rest with
        | v :: rest' => scan dv rest' (set_uid v a) l
        | [] => Stop a (log (Msg.expects "-uid" Msg.expected_uid) l)
        end
      else if streq arg "-supersafe" then
        scan dv rest (set_safe true a) l
      else if streq arg "-cl" then
        match rest with
        | v :: rest' => scan dv rest' (set_clArgs v a) l
        | [] => Stop a (log (Msg.expects "-cl" Msg.expected_cl) l)
        end
      else if streq arg "-selftest" then
        scan dv rest (set_selfTest true a) l
      else if streq arg "-time" then
        match rest with
        | v :: rest' =>
            if streq v "kernels" then scan dv rest' (set_timeKernels true a) l
            else Stop a (log Msg.time_expects l)
        | [] => Stop a (log Msg.time_expects l)
        end
      else if streq arg "-legacy" then
        scan dv rest (set_useLegacy true a) l
      else if streq arg "-device" then
        match rest with
        | v :: rest' =>
            let a := set_device (atoi v) a in
            let nDevices := getNumberOfDevices dv in
            if (device a <? 0) || (device a >=? nDevices) then
              Stop a (log (Msg.invalid_device (device a) nDevices) l)
            else scan dv rest' a l
        | [] => Stop a (log (Msg.expects "-device" Msg.expected_N) l)
        end
      else
        Stop a (log (Msg.not_understood arg) l)
  end.

(** ** [Args::parse]: after the loop *)

(** Lines 166-167: the defaults of [saveStep] and [checkStep]. *)
Definition fill_defaults (a : Args) : Args :=
  let a := if saveStep a =? 0 then set_saveStep (Int.mul (logStep a) 500) a else a in
  if checkStep a =? 0 then set_checkStep (Int.mul (logStep a) 10) a else a.

(** Lines 169-170: neither step is below [logStep]. *)
Definition clamp_steps (a : Args) : Args :=
  let a := if saveStep a <? logStep a then set_saveStep (logStep a) a else a in
  if checkStep a <? logStep a then set_checkStep (logStep a) a else a.

(** Lines 173-174: make them multiple of [logStep]. *)
Definition truncate_steps (a : Args) : Args :=
  let a := set_saveStep (Int.sub (saveStep a) (Int.rem (saveStep a) (logStep a))) a in
  set_checkStep (Int.sub (checkStep a) (Int.rem (checkStep a) (logStep a))) a.

(** Lines 176-179: kernels cannot be timed when [logStep == 1]. *)
Definition force_time (a : Args) (l : Log) : Args * Log :=
  if (timeKernels a && (logStep a =? 1))%bool
  then (set_timeKernels false a, log Msg.ignoring_time l)
  else (a, l).

(** Lines 165-179.  [None] is the failure of [assert(logStep > 0)], which
    aborts the program. *)
Definition normalize (a : Args) (l : Log) : option (Args * Log) :=
  if logStep a >? 0
  then Some (force_time (truncate_steps (clamp_steps (fill_defaults a))) l)
  else None.

(** What a call of [parse] leaves behind: the value returned, the object
    and the Logger. *)
Record Outcome : Type := mkOutcome {
  returned : bool;
  object : Args;
  logged : Log
}.

(** [bool Args::parse(int argc, char **argv)] on the object [a], the Logger
    holding [l].  [argv[0]] is skipped.  [None]: the assertion failed. *)
Definition parse (dv : Devices) (argv : list string) (a : Args) (l : Log)
  : option Outcome :=
  match scan dv (tl argv) a l with
  | Stop a l => Some (mkOutcome false a l)
  | Done a l =>
      match normalize a l with
      | Some (a, l) => Some (mkOutcome true a (logConfig a l))
      | None => None
      end
  end.

(** [Args args; args.parse(argc, argv)]: [parse] on a freshly constructed
    object and an empty Logger. *)
Definition parse_new (dv : Devices) (argv : list string) : option Outcome :=
  parse dv argv Args_new [].

(** * Specification *)

(** ** The loop, iteration by iteration *)

(** [iter dv args a rest a']: started on the tokens [args] with the object
    [a], the loop body does not return; it leaves the object [a'] and the
    tokens [rest] to the following iterations.  Nothing is logged. *)
Inductive iter (dv : Devices) : list string -> Args -> list string -> Args -> Prop :=
| iter_logstep v rest a :
    0 < atoi v ->
    iter dv ("-logstep" :: v :: rest) a rest (set_logStep (atoi v) a)
| iter_savestep v rest a :
    0 < atoi v ->
    iter dv ("-savestep" :: v :: rest) a rest (set_saveStep (atoi v) a)
| iter_checkstep v rest a :
    0 < atoi v ->
    iter dv ("-checkstep" :: v :: rest) a rest (set_checkStep (atoi v) a)
| iter_uid v rest a :
    iter dv ("-uid" :: v :: rest) a rest (set_uid v a)
| iter_supersafe rest a :
    iter dv ("-supersafe" :: rest) a rest (set_safe true a)
| iter_cl v rest a :
    iter dv ("-cl" :: v :: rest) a rest (set_clArgs v a)
| iter_selftest rest a :
    iter dv ("-selftest" :: rest) a rest (set_selfTest true a)
| iter_time rest a :
    iter dv ("-time" :: "kernels" :: rest) a rest (set_timeKernels true a)
| iter_legacy rest a :
    iter dv ("-legacy" :: rest) a rest (set_useLegacy true a)
| iter_device v rest a :
    0 <= atoi v < getNumberOfDevices dv ->
    iter dv ("-device" :: v :: rest) a rest (set_device (atoi v) a).

(** [run dv args a a']: the loop consumes all of [args] without returning
    and ends with the object [a']. *)
Inductive run (dv : Devices) : list string -> Args -> Args -> Prop :=
| run_nil a : run dv [] a a
| run_iter args a rest a1 a' :
    iter dv args a rest a1 -> run dv rest a1 a' -> run dv args a a'.

(** ** Invariants *)

(** The four [int] fields hold values of type [int]. *)
Definition int_fields (a : Args) : Prop :=
  Int.in_range (logStep a) /\ Int.in_range (saveStep a)
  /\ Int.in_range (checkStep a) /\ Int.in_range (device a).

(** The loop invariant: [logStep] is positive, [saveStep] and [checkStep]
    are unset (0) or positive, [device] is unset (-1) or a device. *)
Definition scanned (dv : Devices) (a : Args) : Prop :=
  int_fields a
  /\ 0 < logStep a /\ 0 <= saveStep a /\ 0 <= checkStep a
  /\ (device a = -1 \/ 0 <= device a < getNumberOfDevices dv).

(** The invariants of a successful return. *)
Definition success_invariants (dv : Devices) (a : Args) : Prop :=
  logStep a > 0
  /\ (saveStep a >= logStep a /\ saveStep a mod logStep a = 0)
  /\ (checkStep a >= logStep a /\ checkStep a mod logStep a = 0)
  /\ (timeKernels a = true -> logStep a > 1)
  /\ (device a = -1 \/ 0 <= device a < getNumberOfDevices dv).

(** ** The steps after the loop, in closed form *)

(** A step made a multiple of [L], from a value [s]: [s] is first raised
    to [L]. *)
Definition round_step (s L : Z) : Z := Z.max s L - Z.max s L mod L.

(** The value of an unset step: [L * k] computed on [int]. *)
Definition step_or_default (s L k : Z) : Z := if s =? 0 then Int.mul L k else s.

(** The object after lines 165-179, field by field. *)
Definition normalized (a : Args) : Args :=
  {| clArgs := clArgs a;
     uid := uid a;
     logStep := logStep a;
     saveStep := round_step (step_or_default (saveStep a) (logStep a) 500) (logStep a);
     checkStep := round_step (step_or_default (checkStep a) (logStep a) 10) (logStep a);
     device := device a;
     timeKernels := timeKernels a && negb (logStep a =? 1);
     selfTest := selfTest a;
     useLegacy := useLegacy a;
     safe := safe a |}.

(** What a successful [parse] has logged: the warning of line 177 when it
    applies, then the line of [logConfig]. *)
Definition success_log (a : Args) : Log :=
  (if (timeKernels a && (logStep a =? 1))%bool then [Msg.ignoring_time] else [])
  ++ [config_line (normalized a)].

(** The number of warnings among the messages logged. *)
Definition warnings (l : Log) : nat := count_occ string_dec l Msg.ignoring_time.

(** ** Tokens *)

(** The flags that make the loop read [argv[++i]]. *)
Definition takes_argument (arg : string) : bool :=
  existsb (streq arg)
    ["-logstep"; "-savestep"; "-checkstep"; "-uid"; "-cl"; "-time"; "-device"].

(** The tokens of [args] that the loop compares with the flags: every
    token but those read as the argument of a preceding flag. *)
Fixpoint flags_of (args : list string) : list string :=
  match args with
  | [] => []
  | arg :: rest =>
      arg :: (if takes_argument arg
              then match rest with
                   | [] => []
                   | _ :: rest' => flags_of rest'
                   end
              else flags_of rest)
  end.

(** The first character of [s] is a decimal digit. *)
Definition starts_with_digit (s : string) : bool :=
  match s with
  | String c _ => match digit_of c with Some _ => true | None => false end
  | EmptyString => false
  end.

(** After white space and an optional sign, [s] does not show a digit. *)
Definition non_numeric (s : string) : bool :=
  match skip_space s with
  | String c s' =>
      if (Ascii.eqb c "-" || Ascii.eqb c "+")%bool
      then negb (starts_with_digit s')
      else negb (starts_with_digit (String c s'))
  | EmptyString => true
  end.

(** ** Value flags *)

(** The flags that take a value, as an enumeration. *)
Inductive ValueFlag : Type :=
| FLogStep | FSaveStep | FCheckStep | FUid | FCl | FDevice.

Definition flag_name (f : ValueFlag) : string :=
  match f with
  | FLogStep => "-logstep"
  | FSaveStep => "-savestep"
  | FCheckStep => "-checkstep"
  | FUid => "-uid"
  | FCl => "-cl"
  | FDevice => "-device"
  end.

(** The check that the loop makes on the argument [v] of the flag fails. *)
Definition rejected (dv : Devices) (f : ValueFlag) (v : string) : Prop :=
  match f with
  | FLogStep | FSaveStep | FCheckStep => atoi v <= 0
  | FDevice => atoi v < 0 \/ atoi v >= getNumberOfDevices dv
  | FUid | FCl => False
  end.

(** The field of the flag holds what the argument [v] determines: [v] or
    its value for [-uid], [-cl], [-logstep] and [-device]; for [-savestep]
    and [-checkstep], the value of [v] raised to [logStep] and made a
    multiple of it. *)
Definition holds (f : ValueFlag) (v : string) (a : Args) : Prop :=
  match f with
  | FLogStep => logStep a = atoi v
  | FSaveStep => saveStep a = round_step (atoi v) (logStep a)
  | FCheckStep => checkStep a = round_step (atoi v) (logStep a)
  | FUid => uid a = v
  | FCl => clArgs a = v
  | FDevice => device a = atoi v
  end.

(** ** The device lines of the help *)

(** The device lines, numbered from [i]. *)
Fixpoint device_lines (i : Z) (infos : list string) : list string :=
  match infos with
  | [] => []
  | info :: rest => Msg.device_line i info :: device_lines (i + 1) rest
  end.

(** The lines that the help shows for the devices. *)
Definition listed (dv : Devices) : list string :=
  device_lines 0 (getDeviceIDs dv 16).

(** ** Sample command lines *)

(** A machine with two devices. *)
Definition two_devices : Devices := mkDevices ["GPU A"; "CPU B"].

(** A machine with more devices than the help lists. *)
Definition many_devices : Devices :=
  mkDevices (List.repeat "Some Device" 20).

(** A command line, the object that the loop leaves for it and the
    object that [parse] returns. *)
Definition sample_argv : list string :=
  ["gpuowl"; "-logstep"; "3"; "-savestep"; "100"; "-time"; "kernels";
   "-device"; "1"; "-uid"; "alice/box1"].

Definition sample_scanned : Args :=
  mkArgs EmptyString "alice/box1" 3 100 0 1 true false false false.

Definition sample_args : Args :=
  mkArgs EmptyString "alice/box1" 3 99 30 1 true false false false.

(** ** The outcome of each kind of token *)

(** The tokens that the loop recognizes as flags. *)
Definition recognized : list string :=
  ["-h"; "--help"; "-logstep"; "-savestep"; "-checkstep"; "-uid";
   "-supersafe"; "-cl"; "-selftest"; "-time"; "-legacy"; "-device"].

(** The assignment that a value flag makes from its argument [v], before
    any check. *)
Definition store (f : ValueFlag) (v : string) (a : Args) : Args :=
  match f with
  | FLogStep => set_logStep (atoi v) a
  | FSaveStep => set_saveStep (atoi v) a
  | FCheckStep => set_checkStep (atoi v) a
  | FUid => set_uid v a
  | FCl => set_clArgs v a
  | FDevice => set_device (atoi v) a
  end.

(** The message logged when the check on the argument [v] fails. *)
Definition rejection (dv : Devices) (f : ValueFlag) (v : string) : string :=
  match f with
  | FDevice => Msg.invalid_device (atoi v) (getNumberOfDevices dv)
  | _ => Msg.invalid (flag_name f) v
  end.

(** What the help branch logs for the object [a]. *)
Definition help_text (dv : Devices) (a : Args) : Log :=
  [Msg.options a] ++ listed dv ++ [Msg.files; Msg.worktodo].

(** ** Options *)

(** The tokens of one option: a value flag with its argument, a boolean
    flag, or [-time kernels]. *)
Inductive option_group : list string -> Prop :=
| og_value f v : option_group [flag_name f; v]
| og_supersafe : option_group ["-supersafe"]
| og_selftest : option_group ["-selftest"]
| og_legacy : option_group ["-legacy"]
| og_time : option_group ["-time"; "kernels"].

(** Two objects that differ at most in the field of the flag [f]. *)
Definition agree_except (f : ValueFlag) (a b : Args) : Prop :=
  store f EmptyString a = store f EmptyString b.

(** ** The options on the configuration line *)

(** A value of [-cl] between double quotes, as [logConfig] writes it. *)
Definition quoted (s : string) : string := (dq ++ s ++ dq)%string.

(** The options that [logConfig] shows for the object [a], in its order:
    the three steps always, [-uid] and [-cl] when their strings are not
    empty ([quote] tells how the value of [-cl] is written), a boolean
    flag when it is set. *)
Definition echo_options (quote : string -> string) (a : Args) : list string :=
  ["-logstep"; fmt_d (logStep a);
   "-savestep"; fmt_d (saveStep a);
   "-checkstep"; fmt_d (checkStep a)]
  ++ (if streq (uid a) EmptyString then [] else ["-uid"; uid a])
  ++ (if safe a then ["-supersafe"] else [])
  ++ (if streq (clArgs a) EmptyString then [] else ["-cl"; quote (clArgs a)])
  ++ (if selfTest a then ["-selftest"] else [])
  ++ (if timeKernels a then ["-time"; "kernels"] else [])
  ++ (if useLegacy a then ["-legacy"] else []).

(** Words written one after the other, a space before each. *)
Fixpoint words (ts : list string) : string :=
  match ts with
  | [] => EmptyString
  | t :: rest => (" " ++ t ++ words rest)%string
  end.

(** ** Well-formed options *)

(** A well-formed option: a value flag with an argument that passes its
    check, a boolean flag, or [-time kernels]. *)
Inductive valid_option (dv : Devices) : list string -> Prop :=
| vo_value f v : ~ rejected dv f v -> valid_option dv [flag_name f; v]
| vo_supersafe : valid_option dv ["-supersafe"]
| vo_selftest : valid_option dv ["-selftest"]
| vo_legacy : valid_option dv ["-legacy"]
| vo_time : valid_option dv ["-time"; "kernels"].

(** * Properties *)

(** ** [int] *)

Lemma wrap_in_range (z : Z) : Int.in_range (Int.wrap z).
Proof.
  unfold Int.in_range, Int.wrap, Int.min_int, Int.max_int, Int.modulus.
  pose proof (Z.mod_pos_bound (z + 2 ^ 31) (2 ^ 32)); lia.
Qed.

Lemma wrap_small (z : Z) : Int.in_range z -> Int.wrap z = z.
Proof.
  unfold Int.in_range, Int.wrap, Int.min_int, Int.max_int, Int.modulus.
  intros H. rewrite Z.mod_small; lia.
Qed.

Lemma atoi_in_range (s : string) : Int.in_range (atoi s).
Proof. apply wrap_in_range. Qed.

Lemma rem_pos (a b : Z) : 0 <= a -> 0 < b -> Int.rem a b = a mod b.
Proof. intros. unfold Int.rem. apply Z.rem_mod_nonneg; lia. Qed.

(** Truncation to a multiple never leaves [int] when both are positive. *)
Lemma sub_rem_pos (a b : Z) :
  Int.in_range a -> 0 < b <= a ->
  Int.sub a (Int.rem a b) = a - a mod b.
Proof.
  intros Ha Hb. rewrite rem_pos by lia. unfold Int.sub.
  apply wrap_small. unfold Int.in_range, Int.min_int, Int.max_int in *.
  pose proof (Z.mod_pos_bound a b); lia.
Qed.

(** ** One iteration of the loop *)

Create HintDb scan.
#[local] Hint Constructors iter run : scan.

Lemma streq_eq (a b : string) : streq a b = true -> a = b.
Proof. apply String.eqb_eq. Qed.

(** An iteration that does not return is one of the ten cases of [iter]. *)
Lemma scan_Done_inv dv arg rest a l a' l' :
  scan dv (arg :: rest) a l = Done a' l' ->
  exists rest1 a1,
    iter dv (arg :: rest) a rest1 a1
    /\ scan dv rest1 a1 l = Done a' l'
    /\ (List.length rest1 <= List.length rest)%nat.
Proof.
  cbn [scan]. intros H.
  destruct (streq arg "-h" || streq arg "--help")%bool; [discriminate|].
  repeat match type of H with
         | (if streq arg ?f then _ else _) = _ =>
             let E := fresh "E" in
             destruct (streq arg f) eqn:E;
             [apply streq_eq in E; subst arg | clear E]
         end;
    try discriminate;
    try (destruct rest as [|v rest']; [discriminate|]);
    cbn [logStep saveStep checkStep device set_logStep set_saveStep
         set_checkStep set_device] in H.
  - destruct (atoi v <=? 0) eqn:Ev; [discriminate|]. apply Z.leb_gt in Ev.
    exists rest', (set_logStep (atoi v) a). cbn [List.length]. auto with scan.
  - destruct (atoi v <=? 0) eqn:Ev; [discriminate|]. apply Z.leb_gt in Ev.
    exists rest', (set_saveStep (atoi v) a). cbn [List.length]. auto with scan.
  - destruct (atoi v <=? 0) eqn:Ev; [discriminate|]. apply Z.leb_gt in Ev.
    exists rest', (set_checkStep (atoi v) a). cbn [List.length]. auto with scan.
  - exists rest', (set_uid v a). cbn [List.length]. auto with scan.
  - exists rest, (set_safe true a). auto with scan.
  - exists rest', (set_clArgs v a). cbn [List.length]. auto with scan.
  - exists rest, (set_selfTest true a). auto with scan.
  - destruct (streq v "kernels") eqn:Ek; [|discriminate].
    apply streq_eq in Ek; subst v.
    exists rest', (set_timeKernels true a). cbn [List.length]. auto with scan.
  - exists rest, (set_useLegacy true a). auto with scan.
  - destruct ((atoi v <? 0) || (atoi v >=? getNumberOfDevices dv))%bool eqn:Ev;
      [discriminate|].
    apply orb_false_iff in Ev. destruct Ev as [E1 E2].
    apply Z.ltb_ge in E1. rewrite Z.geb_leb in E2. apply Z.leb_gt in E2.
    exists rest', (set_device (atoi v) a). cbn [List.length].
    split; [constructor; lia|auto].
Qed.

(** Conversely, an iteration described by [iter] hands over to the next
    one, whatever tokens follow. *)
Lemma iter_scan dv args a rest a1 :
  iter dv args a rest a1 ->
  forall post l, scan dv (args ++ post) a l = scan dv (rest ++ post) a1 l.
Proof.
  intros H post l.
  destruct H; cbn [app];
    try reflexivity;
    try (change (scan dv ("-logstep" :: v :: rest ++ post) a l)
           with (if atoi v <=? 0
                 then Stop (set_logStep (atoi v) a) (log (Msg.invalid "-logstep" v) l)
                 else scan dv (rest ++ post) (set_logStep (atoi v) a) l));
    try (change (scan dv ("-savestep" :: v :: rest ++ post) a l)
           with (if atoi v <=? 0
                 then Stop (set_saveStep (atoi v) a) (log (Msg.invalid "-savestep" v) l)
                 else scan dv (rest ++ post) (set_saveStep (atoi v) a) l));
    try (change (scan dv ("-checkstep" :: v :: rest ++ post) a l)
           with (if atoi v <=? 0
                 then Stop (set_checkStep (atoi v) a) (log (Msg.invalid "-checkstep" v) l)
                 else scan dv (rest ++ post) (set_checkStep (atoi v) a) l));
    try (destruct (atoi v <=? 0) eqn:E; [apply Z.leb_le in E; lia | reflexivity]).
  change (scan dv ("-device" :: v :: rest ++ post) a l)
    with (if ((atoi v <? 0) || (atoi v >=? getNumberOfDevices dv))%bool
          then Stop (set_device (atoi v) a)
                 (log (Msg.invalid_device (atoi v) (getNumberOfDevices dv)) l)
          else scan dv (rest ++ post) (set_device (atoi v) a) l).
  destruct (atoi v <? 0) eqn:E1; [apply Z.ltb_lt in E1; lia|].
  destruct (atoi v >=? getNumberOfDevices dv) eqn:E2; [|reflexivity].
  rewrite Z.geb_leb in E2. apply Z.leb_le in E2. lia.
Qed.

Lemma run_scan dv args a a' :
  run dv args a a' ->
  forall post l, scan dv (args ++ post) a l = scan dv post a' l.
Proof.
  induction 1 as [a|args a rest a1 a' Hi _ IH]; intros post l.
  - reflexivity.
  - rewrite (iter_scan _ _ _ _ _ Hi). apply IH.
Qed.

(** The loop runs to its end exactly along [run], and then it has logged
    nothing. *)
Lemma scan_Done_run dv args a l a' l' :
  scan dv args a l = Done a' l' -> run dv args a a' /\ l' = l.
Proof.
  remember (List.length args) as n eqn:Hn.
  revert args a Hn. induction n as [n IH] using lt_wf_ind.
  intros [|arg rest] a Hn H.
  - cbn in H. injection H as <- <-. auto with scan.
  - apply scan_Done_inv in H. destruct H as (rest1 & a1 & Hi & Hs & Hlen).
    cbn [List.length] in Hn.
    destruct (IH (List.length rest1) ltac:(lia) rest1 a1 eq_refl Hs) as [Hr ->].
    eauto with scan.
Qed.

Lemma run_Done dv args a a' l :
  run dv args a a' -> scan dv args a l = Done a' l.
Proof.
  intros H. rewrite <- (app_nil_r args). rewrite (run_scan _ _ _ _ H). reflexivity.
Qed.

(** The loop over a prefix that it consumes entirely, followed by the loop
    over the remaining tokens. *)
Lemma scan_app dv pre post a l a1 l1 :
  scan dv pre a l = Done a1 l1 ->
  scan dv (pre ++ post) a l = scan dv post a1 l1.
Proof.
  intros H. apply scan_Done_run in H. destruct H as [H ->].
  apply run_scan; assumption.
Qed.

Lemma iter_step dv args a rest a1 l :
  iter dv args a rest a1 -> scan dv args a l = scan dv rest a1 l.
Proof.
  intros H. rewrite <- (app_nil_r args), <- (app_nil_r rest).
  apply iter_scan; assumption.
Qed.

Lemma iter_app dv args a rest a1 post :
  iter dv args a rest a1 -> iter dv (args ++ post) a (rest ++ post) a1.
Proof. destruct 1; cbn [app]; constructor; assumption. Qed.

Lemma run_app_run dv pre post a a1 a' :
  run dv pre a a1 -> run dv post a1 a' -> run dv (pre ++ post) a a'.
Proof.
  induction 1 as [a|args a rest a1 a2 Hi _ IH]; intros Hp; [assumption|].
  eapply run_iter; [apply iter_app; eassumption|auto].
Qed.

(** ** What the loop maintains *)

Lemma scanned_new dv : scanned dv Args_new.
Proof.
  unfold scanned, int_fields, Int.in_range, Int.min_int, Int.max_int.
  cbn. unfold DEFAULT_LOGSTEP. lia.
Qed.

Lemma iter_scanned dv args a rest a' :
  iter dv args a rest a' -> scanned dv a -> scanned dv a'.
Proof.
  unfold scanned, int_fields.
  destruct 1; cbn; intros Ha;
    try pose proof (atoi_in_range v); intuition lia.
Qed.

Lemma run_scanned dv args a a' :
  run dv args a a' -> scanned dv a -> scanned dv a'.
Proof. induction 1; eauto using iter_scanned. Qed.

(** ** The steps after the loop *)

Lemma round_step_ge (s L : Z) : 0 < L -> L <= round_step s L.
Proof.
  intros HL. unfold round_step.
  assert (H : L <= Z.max s L) by lia. revert H. generalize (Z.max s L). intros m Hm.
  pose proof (Z.div_mod m L ltac:(lia)).
  assert (1 <= m / L) by (apply Z.div_le_lower_bound; lia).
  nia.
Qed.

Lemma round_step_mod (s L : Z) : 0 < L -> round_step s L mod L = 0.
Proof.
  intros HL. unfold round_step. generalize (Z.max s L). intros m.
  rewrite Zminus_mod, Z.mod_mod, Z.sub_diag by lia. apply Z.mod_0_l. lia.
Qed.

Lemma round_step_le (s L : Z) : 0 < L -> round_step s L <= Z.max s L.
Proof.
  intros HL. unfold round_step. pose proof (Z.mod_pos_bound (Z.max s L) L). lia.
Qed.

Lemma round_step_fixed (s L : Z) : 0 < L <= s -> s mod L = 0 -> round_step s L = s.
Proof. intros H1 H2. unfold round_step. rewrite Z.max_l by lia. lia. Qed.

(** Lines 169-174 on one step. *)
Lemma clamp_truncate (s L : Z) :
  Int.in_range s -> Int.in_range L -> 0 < L ->
  Int.sub (if s <? L then L else s) (Int.rem (if s <? L then L else s) L)
  = round_step s L.
Proof.
  intros Hs HL Hpos. unfold round_step.
  destruct (s <? L) eqn:E.
  - apply Z.ltb_lt in E. rewrite Z.max_r by lia. apply sub_rem_pos; [assumption|lia].
  - apply Z.ltb_ge in E. rewrite Z.max_l by lia. apply sub_rem_pos; [assumption|lia].
Qed.

Lemma step_or_default_in_range (s L k : Z) :
  Int.in_range s -> Int.in_range (step_or_default s L k).
Proof.
  unfold step_or_default. destruct (s =? 0); [intros _; apply wrap_in_range|auto].
Qed.

Lemma fill_defaults_eq (a : Args) :
  fill_defaults a
  = mkArgs (clArgs a) (uid a) (logStep a)
      (step_or_default (saveStep a) (logStep a) 500)
      (step_or_default (checkStep a) (logStep a) 10)
      (device a) (timeKernels a) (selfTest a) (useLegacy a) (safe a).
Proof.
  destruct a as [cl u L S C d tk st ul sf].
  unfold fill_defaults, step_or_default. cbn.
  destruct (S =? 0); cbn; destruct (C =? 0); reflexivity.
Qed.

Lemma clamp_steps_eq (a : Args) :
  clamp_steps a
  = mkArgs (clArgs a) (uid a) (logStep a)
      (if saveStep a <? logStep a then logStep a else saveStep a)
      (if checkStep a <? logStep a then logStep a else checkStep a)
      (device a) (timeKernels a) (selfTest a) (useLegacy a) (safe a).
Proof.
  destruct a as [cl u L S C d tk st ul sf].
  unfold clamp_steps. cbn.
  destruct (S <? L); cbn; destruct (C <? L); reflexivity.
Qed.

Lemma force_time_eq (a : Args) (l : Log) :
  force_time a l
  = (set_timeKernels (timeKernels a && negb (logStep a =? 1)) a,
     if (timeKernels a && (logStep a =? 1))%bool
     then l ++ [Msg.ignoring_time] else l).
Proof.
  destruct a as [cl u L S C d tk st ul sf].
  unfold force_time, log. cbn.
  destruct tk; destruct (L =? 1); reflexivity.
Qed.

Lemma normalize_eq (a : Args) (l : Log) :
  int_fields a -> 0 < logStep a ->
  normalize a l
  = Some (normalized a,
          if (timeKernels a && (logStep a =? 1))%bool
          then l ++ [Msg.ignoring_time] else l).
Proof.
  intros (HL & HS & HC & _) Hpos.
  pose proof (clamp_truncate _ _ (step_or_default_in_range _ (logStep a) 500 HS) HL Hpos) as ES.
  pose proof (clamp_truncate _ _ (step_or_default_in_range _ (logStep a) 10 HC) HL Hpos) as EC.
  unfold normalized. rewrite <- ES, <- EC. clear ES EC HL HS HC.
  unfold normalize. apply Z.gtb_lt in Hpos. rewrite Hpos. clear Hpos.
  rewrite force_time_eq, fill_defaults_eq, clamp_steps_eq.
  reflexivity.
Qed.

(** ** [parse] on a fresh object *)

Lemma parse_run dv argv0 args a :
  run dv args Args_new a ->
  parse_new dv (argv0 :: args)
  = Some (mkOutcome true (normalized a) (success_log a)).
Proof.
  intros Hr. pose proof (run_scanned _ _ _ _ Hr (scanned_new dv)) as (Hi & Hpos & _).
  unfold parse_new, parse. cbn [tl].
  rewrite (run_Done _ _ _ _ [] Hr), (normalize_eq _ _ Hi Hpos).
  unfold success_log, logConfig, log.
  destruct (timeKernels a && (logStep a =? 1))%bool; reflexivity.
Qed.

Lemma parse_true_inv dv argv o :
  parse_new dv argv = Some o -> returned o = true ->
  exists a, run dv (tl argv) Args_new a
            /\ object o = normalized a /\ logged o = success_log a.
Proof.
  unfold parse_new, parse. intros H Ht.
  destruct (scan dv (tl argv) Args_new []) as [a l|a l] eqn:Es.
  - apply scan_Done_run in Es. destruct Es as [Hr ->].
    pose proof (run_scanned _ _ _ _ Hr (scanned_new dv)) as (Hi & Hpos & _).
    rewrite (normalize_eq _ _ Hi Hpos) in H. injection H as <-.
    exists a. split; [assumption|]. split; [reflexivity|].
    unfold success_log, logConfig, log. cbn [logged].
    destruct (timeKernels a && (logStep a =? 1))%bool; reflexivity.
  - injection H as <-. discriminate.
Qed.

(** [assert(logStep > 0)] never fails: [parse] always returns. *)
Lemma parse_returns dv argv : exists o, parse_new dv argv = Some o.
Proof.
  unfold parse_new, parse.
  destruct (scan dv (tl argv) Args_new []) as [a l|a l] eqn:Es; [|eauto].
  apply scan_Done_run in Es. destruct Es as [Hr ->].
  pose proof (run_scanned _ _ _ _ Hr (scanned_new dv)) as (Hi & Hpos & _).
  rewrite (normalize_eq _ _ Hi Hpos). eauto.
Qed.

(** *** The invariants of a successful return *)

Lemma normalized_invariants dv a :
  scanned dv a -> success_invariants dv (normalized a).
Proof.
  intros (_ & Hpos & _ & _ & Hd). unfold success_invariants, normalized. cbn.
  pose proof (round_step_ge (step_or_default (saveStep a) (logStep a) 500) _ Hpos).
  pose proof (round_step_ge (step_or_default (checkStep a) (logStep a) 10) _ Hpos).
  split; [lia|]. split; [split; [lia | apply round_step_mod; lia]|].
  split; [split; [lia | apply round_step_mod; lia]|].
  split; [|assumption].
  intros Ht. apply andb_true_iff in Ht. destruct Ht as [_ Ht].
  apply negb_true_iff, Z.eqb_neq in Ht. lia.
Qed.

(** C1.  Whenever [parse], called on a freshly constructed [Args], returns
    [true], the object satisfies the five invariants of a successful
    return: [logStep > 0]; [saveStep >= logStep] and [saveStep] is a
    multiple of [logStep]; the same for [checkStep]; [timeKernels] implies
    [logStep > 1]; [device] is -1 or the index of an available device. *)
Theorem parse_success_invariants dv argv o :
  parse_new dv argv = Some o -> returned o = true ->
  success_invariants dv (object o).
Proof.
  intros H Ht. destruct (parse_true_inv _ _ _ H Ht) as (a & Hr & -> & _).
  apply normalized_invariants. exact (run_scanned _ _ _ _ Hr (scanned_new dv)).
Qed.

Lemma parse_success_invariants_witness :
  parse_new two_devices sample_argv
  = Some (mkOutcome true sample_args [config_line sample_args])
  /\ success_invariants two_devices sample_args.
Proof.
  split; [reflexivity|].
  exact (parse_success_invariants two_devices sample_argv
           (mkOutcome true sample_args [config_line sample_args])
           eq_refl eq_refl).
Defined.

(** C4.  With the program name as only argument, [parse] returns [true] and
    leaves [logStep = 20000], [saveStep = 10000000], [checkStep = 200000],
    [device = -1] and the four booleans [false]. *)
Theorem parse_defaults dv argv0 :
  exists o, parse_new dv [argv0] = Some o
            /\ returned o = true
            /\ logStep (object o) = 20000
            /\ saveStep (object o) = 10000000
            /\ checkStep (object o) = 200000
            /\ device (object o) = -1
            /\ timeKernels (object o) = false /\ selfTest (object o) = false
            /\ useLegacy (object o) = false /\ safe (object o) = false.
Proof. eexists. split; [reflexivity|]. cbn. repeat split; reflexivity. Qed.

(** ** Which tokens are read as flags *)

Lemma iter_flags dv args a rest a' :
  iter dv args a rest a' ->
  exists flag more, args = flag :: more /\ flags_of args = flag :: flags_of rest.
Proof. destruct 1; eexists; eexists; split; reflexivity. Qed.

(** A field keeps its value along tokens among which its flag is not read. *)
Section Untouched.

Context {A : Type} (field : Args -> A) (flag : string).

Hypothesis iter_other :
  forall dv args a rest a',
    iter dv args a rest a' -> hd EmptyString args <> flag -> field a' = field a.

Lemma run_untouched dv args a a' :
  run dv args a a' -> ~ In flag (flags_of args) -> field a' = field a.
Proof.
  induction 1 as [a|args a rest a1 a' Hi _ IH]; intros Hn; [reflexivity|].
  destruct (iter_flags _ _ _ _ _ Hi) as (f & more & -> & Ef).
  rewrite Ef in Hn. cbn [In] in Hn.
  rewrite IH by tauto.
  apply (iter_other _ _ _ _ _ Hi). cbn [hd]. tauto.
Qed.

End Untouched.

Ltac iter_other :=
  intros ? ? ? ? ? Hi Hn; destruct Hi; cbn in *; congruence.

Lemma run_keeps_logStep dv args a a' :
  run dv args a a' -> ~ In "-logstep" (flags_of args) -> logStep a' = logStep a.
Proof. apply run_untouched. iter_other. Qed.

Lemma run_keeps_saveStep dv args a a' :
  run dv args a a' -> ~ In "-savestep" (flags_of args) -> saveStep a' = saveStep a.
Proof. apply run_untouched. iter_other. Qed.

Lemma run_keeps_checkStep dv args a a' :
  run dv args a a' -> ~ In "-checkstep" (flags_of args) -> checkStep a' = checkStep a.
Proof. apply run_untouched. iter_other. Qed.

Lemma run_keeps_uid dv args a a' :
  run dv args a a' -> ~ In "-uid" (flags_of args) -> uid a' = uid a.
Proof. apply run_untouched. iter_other. Qed.

Lemma run_keeps_clArgs dv args a a' :
  run dv args a a' -> ~ In "-cl" (flags_of args) -> clArgs a' = clArgs a.
Proof. apply run_untouched. iter_other. Qed.

Lemma run_keeps_device dv args a a' :
  run dv args a a' -> ~ In "-device" (flags_of args) -> device a' = device a.
Proof. apply run_untouched. iter_other. Qed.

(** The loop reaching a flag after a prefix that it has consumed. *)
Lemma run_app_inv dv pre post a a1 l l1 a' :
  scan dv pre a l = Done a1 l1 ->
  run dv (pre ++ post) a a' -> run dv post a1 a'.
Proof.
  intros Hs Hr. apply (run_Done _ _ _ _ l) in Hr.
  rewrite (scan_app _ _ _ _ _ _ _ Hs) in Hr.
  apply scan_Done_run in Hr. tauto.
Qed.

Lemma run_cons_inv dv arg rest a a' :
  run dv (arg :: rest) a a' ->
  exists rest1 a1, iter dv (arg :: rest) a rest1 a1 /\ run dv rest1 a1 a'.
Proof. inversion 1; subst; eauto. Qed.

(** ** The derived defaults *)

(** Without [-savestep] and [-checkstep], and as long as [500 * logStep]
    is an [int], the steps are [500 * logStep] and [10 * logStep]. *)
Lemma default_steps_small dv argv0 args o :
  ~ In "-savestep" (flags_of args) -> ~ In "-checkstep" (flags_of args) ->
  parse_new dv (argv0 :: args) = Some o -> returned o = true ->
  500 * logStep (object o) <= Int.max_int ->
  saveStep (object o) = 500 * logStep (object o)
  /\ checkStep (object o) = 10 * logStep (object o).
Proof.
  intros Hs Hc H Ht.
  destruct (parse_true_inv _ _ _ H Ht) as (a & Hr & -> & _). cbn [tl] in Hr.
  intros Hsmall.
  pose proof (run_scanned _ _ _ _ Hr (scanned_new dv)) as (_ & Hpos & _).
  unfold normalized in *. cbn [saveStep checkStep logStep] in *.
  rewrite (run_keeps_saveStep _ _ _ _ Hr Hs), (run_keeps_checkStep _ _ _ _ Hr Hc).
  cbn [saveStep checkStep Args_new]. unfold step_or_default. cbn [Z.eqb].
  unfold Int.mul, Int.max_int in *.
  rewrite !wrap_small by (unfold Int.in_range, Int.min_int, Int.max_int; lia).
  rewrite (Z.mul_comm (logStep a) 500), (Z.mul_comm (logStep a) 10).
  split; apply round_step_fixed; try lia; apply Z.mod_mul; lia.
Qed.

(** C2.  [-logstep 5000000], without [-savestep]: [logStep * 500] does not
    fit an [int]; [parse] returns [true] with [saveStep = 5000000], which
    is not [500 * logStep].  Likewise [-logstep 300000000] leaves
    [checkStep = 300000000], not [10 * logStep]. *)
Theorem default_steps_overflow dv :
  (exists o, parse_new dv ["gpuowl"; "-logstep"; "5000000"] = Some o
             /\ returned o = true
             /\ logStep (object o) = 5000000
             /\ saveStep (object o) = 5000000
             /\ saveStep (object o) <> 500 * logStep (object o))
  /\ (exists o, parse_new dv ["gpuowl"; "-logstep"; "300000000"] = Some o
                /\ returned o = true
                /\ logStep (object o) = 300000000
                /\ checkStep (object o) = 300000000
                /\ checkStep (object o) <> 10 * logStep (object o)).
Proof.
  split.
  - exists (mkOutcome true
              (mkArgs EmptyString EmptyString 5000000 5000000 50000000 (-1)
                 false false false false)
              [config_line
                 (mkArgs EmptyString EmptyString 5000000 5000000 50000000 (-1)
                    false false false false)]).
    split; [vm_compute; reflexivity|].
    cbn [returned object logStep saveStep].
    repeat split; try reflexivity. vm_compute. discriminate.
  - exists (mkOutcome true
              (mkArgs EmptyString EmptyString 300000000 300000000 300000000 (-1)
                 false false false false)
              [config_line
                 (mkArgs EmptyString EmptyString 300000000 300000000 300000000
                    (-1) false false false false)]).
    split; [vm_compute; reflexivity|].
    cbn [returned object logStep checkStep].
    repeat split; try reflexivity. vm_compute. discriminate.
Qed.

(** ** An explicit [-savestep] *)

Lemma round_step_below (s L : Z) : 0 < L -> s < L -> round_step s L = L.
Proof.
  intros HL Hs. unfold round_step. rewrite Z.max_r by lia.
  rewrite Z.mod_same by lia. lia.
Qed.

Lemma round_step_above (s L : Z) :
  0 < L -> L <= s -> round_step s L = s - s mod L /\ round_step s L <= s.
Proof.
  intros HL Hs. unfold round_step. rewrite Z.max_l by lia.
  pose proof (Z.mod_pos_bound s L). lia.
Qed.

Lemma step_or_default_set (s L k : Z) : 0 < s -> step_or_default s L k = s.
Proof.
  intros Hs. unfold step_or_default.
  destruct (s =? 0) eqn:E; [apply Z.eqb_eq in E; lia|reflexivity].
Qed.

(** C3.  Let [-savestep s] be read by the loop (the tokens [pre] before it
    are consumed) and let no [-savestep] be read after it; write [S] for
    the value of [s] and [L] for the final [logStep].  When [parse]
    returns [true]: [S > 0]; if [S < L] then [saveStep = L]; if [S >= L]
    then [saveStep = S - S mod L], which is at most [S]. *)
Theorem explicit_savestep dv argv0 pre s post a1 l1 o :
  scan dv pre Args_new [] = Done a1 l1 ->
  ~ In "-savestep" (flags_of post) ->
  parse_new dv (argv0 :: pre ++ "-savestep" :: s :: post) = Some o ->
  returned o = true ->
  0 < atoi s
  /\ (atoi s < logStep (object o) -> saveStep (object o) = logStep (object o))
  /\ (atoi s >= logStep (object o) ->
      saveStep (object o) = atoi s - atoi s mod logStep (object o)
      /\ saveStep (object o) <= atoi s).
Proof.
  intros Hpre Hlast H Ht.
  destruct (parse_true_inv _ _ _ H Ht) as (a & Hr & -> & _). cbn [tl] in Hr.
  pose proof (run_scanned _ _ _ _ Hr (scanned_new dv)) as (_ & Hpos & _).
  apply (run_app_inv _ _ _ _ _ _ _ _ Hpre) in Hr.
  apply run_cons_inv in Hr. destruct Hr as (rest1 & a2 & Hi & Hr).
  inversion Hi; subst.
  pose proof (run_keeps_saveStep _ _ _ _ Hr Hlast) as Es.
  unfold normalized. cbn [saveStep logStep set_saveStep] in *. rewrite Es.
  rewrite step_or_default_set by assumption.
  split; [assumption|]. split.
  - intros Hlt. apply round_step_below; assumption.
  - intros Hge. apply round_step_above; lia.
Qed.

Lemma explicit_savestep_witness :
  (0 < atoi "100"
   /\ (atoi "100" < 3 -> 99 = 3)
   /\ (atoi "100" >= 3 -> 99 = atoi "100" - atoi "100" mod 3 /\ 99 <= atoi "100"))
  /\ parse_new two_devices sample_argv
     = Some (mkOutcome true sample_args [config_line sample_args]).
Proof.
  split; [|reflexivity].
  exact (explicit_savestep two_devices "gpuowl" ["-logstep"; "3"] "100"
           ["-time"; "kernels"; "-device"; "1"; "-uid"; "alice/box1"]
           (set_logStep 3 Args_new) []
           (mkOutcome true sample_args [config_line sample_args])
           eq_refl
           ltac:(vm_compute; intuition discriminate)
           eq_refl eq_refl).
Defined.

(** ** Tokens that hold no number *)

Lemma read_digits_none (s : string) (acc : Z) :
  starts_with_digit s = false -> read_digits s acc = acc.
Proof.
  destruct s as [|c s']; [reflexivity|]. cbn.
  destruct (digit_of c); [discriminate|reflexivity].
Qed.

Lemma atoi_non_numeric (s : string) : non_numeric s = true -> atoi s = 0.
Proof.
  unfold non_numeric, atoi, strtol.
  destruct (skip_space s) as [|c s']; [reflexivity|].
  destruct (Ascii.eqb c "-"); [|destruct (Ascii.eqb c "+")]; cbn [orb];
    intros H; apply negb_true_iff in H; rewrite read_digits_none by assumption;
    reflexivity.
Qed.

(** C5.  [atoi] gives 0 for a token [v] that holds no number, such as
    [abc].  Read as the argument of [-logstep], this 0 is rejected: [parse]
    returns [false] after the message [invalid -logstep 'v'].  Read as the
    argument of [-device] when at least one device is available, it passes
    the range check: the loop goes on with [device = 0], and [parse]
    returns [true] with [device = 0] when [-device v] ends the command
    line. *)
Theorem non_numeric_argument dv argv0 pre v post a1 l1 :
  non_numeric v = true ->
  scan dv pre Args_new [] = Done a1 l1 ->
  atoi v = 0
  /\ parse_new dv (argv0 :: pre ++ "-logstep" :: v :: post)
     = Some (mkOutcome false (set_logStep 0 a1) [Msg.invalid "-logstep" v])
  /\ (1 <= getNumberOfDevices dv ->
      scan dv (pre ++ "-device" :: v :: post) Args_new []
      = scan dv post (set_device 0 a1) []
      /\ exists o, parse_new dv (argv0 :: pre ++ ["-device"; v]) = Some o
                   /\ returned o = true /\ device (object o) = 0).
Proof.
  intros Hv Hpre. pose proof (atoi_non_numeric _ Hv) as E0.
  pose proof (scan_Done_run _ _ _ _ _ _ Hpre) as [Hr ->].
  split; [assumption|]. split.
  - unfold parse_new, parse. cbn [tl]. rewrite (scan_app _ _ _ _ _ _ _ Hpre).
    change (scan dv ("-logstep" :: v :: post) a1 [])
      with (if atoi v <=? 0
            then Stop (set_logStep (atoi v) a1) (log (Msg.invalid "-logstep" v) [])
            else scan dv post (set_logStep (atoi v) a1) []).
    rewrite E0. reflexivity.
  - intros Hn.
    assert (Hi : forall rest, iter dv ("-device" :: v :: rest) a1 rest (set_device 0 a1))
      by (intros rest; rewrite <- E0; constructor; lia).
    split.
    + rewrite (scan_app _ _ _ _ _ _ _ Hpre).
      apply iter_step. apply Hi.
    + exists (mkOutcome true (normalized (set_device 0 a1))
                (success_log (set_device 0 a1))).
      split; [|split; reflexivity].
      apply parse_run. apply (run_app_run _ _ _ _ _ _ Hr).
      eapply run_iter; [apply Hi|apply run_nil].
Qed.

Lemma non_numeric_argument_witness :
  atoi "abc" = 0
  /\ parse_new two_devices ["gpuowl"; "-logstep"; "abc"]
     = Some (mkOutcome false (set_logStep 0 Args_new)
               [Msg.invalid "-logstep" "abc"])
  /\ scan two_devices ["-device"; "abc"] Args_new []
     = Done (set_device 0 Args_new) []
  /\ exists o, parse_new two_devices ["gpuowl"; "-device"; "abc"] = Some o
               /\ returned o = true /\ device (object o) = 0.
Proof.
  destruct (non_numeric_argument two_devices "gpuowl" [] "abc" []
              Args_new [] eq_refl eq_refl) as (H0 & Hl & Hd).
  split; [exact H0|]. split; [exact Hl|].
  apply Hd. vm_compute. discriminate.
Defined.

(** ** [-time kernels] *)

Lemma iter_timeKernels dv args a rest a' :
  iter dv args a rest a' -> timeKernels a = true -> timeKernels a' = true.
Proof. destruct 1; cbn; auto. Qed.

Lemma run_timeKernels dv args a a' :
  run dv args a a' -> timeKernels a = true -> timeKernels a' = true.
Proof. induction 1; eauto using iter_timeKernels. Qed.

(** An iteration consumes one token, or two. *)
Lemma iter_consumes dv arg more a rest a' :
  iter dv (arg :: more) a rest a' -> rest = more \/ exists v, more = v :: rest.
Proof. inversion 1; subst; eauto. Qed.

(** [kernels] is not a flag. *)
Lemma run_kernels dv rest a a' : ~ run dv ("kernels" :: rest) a a'.
Proof. intros H. apply run_cons_inv in H. destruct H as (r & a1 & Hi & _). inversion Hi. Qed.

(** Wherever [-time kernels] stands on a command line that the loop
    consumes, it has been read as the flag. *)
Lemma run_reads_time dv pre post a a' :
  run dv (pre ++ "-time" :: "kernels" :: post) a a' -> timeKernels a' = true.
Proof.
  remember (List.length pre) as n eqn:Hn.
  revert pre a Hn. induction n as [n IH] using lt_wf_ind.
  intros pre a Hn Hr. destruct pre as [|x pre'].
  - cbn [app] in Hr. apply run_cons_inv in Hr. destruct Hr as (r & a1 & Hi & Hr).
    inversion Hi; subst. apply (run_timeKernels _ _ _ _ Hr). reflexivity.
  - cbn [app List.length] in *. apply run_cons_inv in Hr.
    destruct Hr as (r & a1 & Hi & Hr).
    destruct (iter_consumes _ _ _ _ _ _ Hi) as [->|(v & Ev)].
    + apply (IH (List.length pre') ltac:(lia) pre' a1 eq_refl Hr).
    + destruct pre' as [|y pre''].
      * cbn [app] in Ev. injection Ev as <- <-.
        exfalso. exact (run_kernels _ _ _ _ Hr).
      * cbn [app List.length] in *. injection Ev as <- <-.
        apply (IH (List.length pre'') ltac:(lia) pre'' a1 eq_refl Hr).
Qed.

Lemma config_line_not_warning (a : Args) : config_line a <> Msg.ignoring_time.
Proof. unfold config_line, Msg.ignoring_time. cbn. discriminate. Qed.

(** C6.  Let the command line contain [-time kernels] and let the loop
    consume it without error, ending with the object [a].  If
    [logStep a = 1], [parse] returns [true] with [timeKernels = false] and
    has logged the warning once, followed by the configuration line.  If
    [logStep a > 1], [parse] returns [true] with [timeKernels = true]. *)
Theorem time_kernels dv argv0 pre post a l :
  scan dv (pre ++ "-time" :: "kernels" :: post) Args_new [] = Done a l ->
  exists o,
    parse_new dv (argv0 :: pre ++ "-time" :: "kernels" :: post) = Some o
    /\ returned o = true
    /\ logStep (object o) = logStep a
    /\ (logStep a = 1 ->
        timeKernels (object o) = false
        /\ logged o = [Msg.ignoring_time; config_line (object o)]
        /\ warnings (logged o) = 1%nat)
    /\ (logStep a > 1 ->
        timeKernels (object o) = true
        /\ logged o = [config_line (object o)]).
Proof.
  intros Hs. apply scan_Done_run in Hs. destruct Hs as [Hr ->].
  pose proof (run_reads_time _ _ _ _ _ Hr) as Ht.
  exists (mkOutcome true (normalized a) (success_log a)).
  split; [apply parse_run; assumption|]. split; [reflexivity|].
  split; [reflexivity|].
  unfold success_log, warnings. cbn [object logged normalized timeKernels].
  rewrite Ht. cbn [andb]. split.
  - intros ->. cbn [Z.eqb Pos.eqb negb app]. split; [reflexivity|].
    split; [reflexivity|].
    cbn [count_occ]. destruct (string_dec Msg.ignoring_time Msg.ignoring_time) as [_|N];
      [|contradiction].
    destruct (string_dec _ Msg.ignoring_time) as [E|_]; [|reflexivity].
    exfalso. exact (config_line_not_warning _ E).
  - intros Hgt. assert (E : (logStep a =? 1) = false) by (apply Z.eqb_neq; lia).
    rewrite E. split; reflexivity.
Qed.

Lemma time_kernels_witness :
  exists o,
    parse_new two_devices ["gpuowl"; "-logstep"; "1"; "-time"; "kernels"] = Some o
    /\ returned o = true
    /\ timeKernels (object o) = false
    /\ warnings (logged o) = 1%nat.
Proof.
  destruct (time_kernels two_devices "gpuowl" ["-logstep"; "1"] []
              (set_timeKernels true (set_logStep 1 Args_new)) [] eq_refl)
    as (o & Hp & Ht & _ & H1 & _).
  destruct (H1 eq_refl) as (Hk & _ & Hw).
  exists o. split; [exact Hp|]. split; [exact Ht|]. split; [exact Hk|exact Hw].
Defined.

(** ** Normalizing twice *)

Lemma round_step_in_range (s L : Z) :
  Int.in_range s -> Int.in_range L -> 0 < L -> Int.in_range (round_step s L).
Proof.
  intros Hs HL Hpos.
  pose proof (round_step_ge s L Hpos). pose proof (round_step_le s L Hpos).
  unfold Int.in_range, Int.min_int, Int.max_int in *. lia.
Qed.

Lemma normalized_int_fields (a : Args) :
  int_fields a -> 0 < logStep a -> int_fields (normalized a).
Proof.
  intros (HL & HS & HC & HD) Hpos. unfold int_fields, normalized. cbn.
  split; [assumption|].
  split; [|split; [|assumption]];
    (apply round_step_in_range; [apply step_or_default_in_range| |]; assumption).
Qed.

Lemma round_step_twice (s L k : Z) :
  0 < L ->
  round_step (step_or_default (round_step s L) L k) L = round_step s L.
Proof.
  intros Hpos. pose proof (round_step_ge s L Hpos).
  rewrite step_or_default_set by lia.
  apply round_step_fixed; [lia|]. apply round_step_mod; assumption.
Qed.

Lemma normalized_twice (a : Args) :
  0 < logStep a -> normalized (normalized a) = normalized a.
Proof.
  intros Hpos. unfold normalized. cbn.
  rewrite !round_step_twice by assumption.
  f_equal. destruct (timeKernels a); destruct (logStep a =? 1); reflexivity.
Qed.

(** C7.  The normalization pass is idempotent: when it has turned an
    object [a] (whose [int] fields hold [int] values) into [a1], applying
    it to [a1] leaves every field of [a1] as it is, and logs nothing. *)
Theorem normalize_idempotent (a a1 : Args) (l l1 : Log) :
  int_fields a ->
  normalize a l = Some (a1, l1) ->
  normalize a1 l1 = Some (a1, l1).
Proof.
  intros Hi H.
  assert (Hpos : 0 < logStep a).
  { unfold normalize in H. destruct (logStep a >? 0) eqn:E; [|discriminate].
    apply Z.gtb_lt; assumption. }
  rewrite (normalize_eq _ _ Hi Hpos) in H. injection H as <- _.
  rewrite (normalize_eq _ _ (normalized_int_fields _ Hi Hpos) Hpos).
  rewrite (normalized_twice _ Hpos).
  cbn [normalized timeKernels logStep].
  destruct (timeKernels a); destruct (logStep a =? 1); reflexivity.
Qed.

Lemma normalize_idempotent_witness :
  normalize sample_scanned [] = Some (sample_args, [])
  /\ normalize sample_args [] = Some (sample_args, []).
Proof.
  split; [reflexivity|].
  apply (normalize_idempotent sample_scanned sample_args [] []); [|reflexivity].
  unfold int_fields, Int.in_range, Int.min_int, Int.max_int. cbn. lia.
Defined.

(** The same on the object that a successful [parse] leaves. *)
Lemma parse_then_normalize dv argv o :
  parse_new dv argv = Some o -> returned o = true ->
  normalize (object o) (logged o) = Some (object o, logged o).
Proof.
  intros H Ht. destruct (parse_true_inv _ _ _ H Ht) as (a & Hr & -> & _).
  pose proof (run_scanned _ _ _ _ Hr (scanned_new dv)) as (Hi & Hpos & _).
  rewrite (normalize_eq _ _ (normalized_int_fields _ Hi Hpos) Hpos).
  rewrite (normalized_twice _ Hpos).
  cbn [normalized timeKernels logStep].
  destruct (timeKernels a); destruct (logStep a =? 1); reflexivity.
Qed.

(** ** A value flag without its argument *)

(** C8, as the code has it.  Let one of [-logstep], [-savestep],
    [-checkstep], [-uid], [-cl], [-device] be the last token and let the
    loop read it as a flag: the tokens [pre] before it are consumed
    without error.  Then [parse] returns [false]; the object is as [pre]
    left it; exactly one message has been logged, which starts with the
    flag and names the argument it expects: [<flag> expects <N> argument],
    [-uid expects userName/computerName] or [-cl expects options string
    to pass to CL compiler]. *)
Theorem missing_argument dv argv0 pre flag a1 l1 :
  In flag ["-logstep"; "-savestep"; "-checkstep"; "-uid"; "-cl"; "-device"] ->
  scan dv pre Args_new [] = Done a1 l1 ->
  exists msg,
    parse_new dv (argv0 :: pre ++ [flag]) = Some (mkOutcome false a1 [msg])
    /\ msg = (flag ++ " expects "
              ++ (if streq flag "-uid" then "userName/computerName"
                  else if streq flag "-cl"
                       then "options string to pass to CL compiler"
                       else "<N> argument")
              ++ String "010"%char EmptyString)%string
    /\ String.prefix flag msg = true.
Proof.
  intros Hf Hpre. pose proof (scan_Done_run _ _ _ _ _ _ Hpre) as [_ ->].
  unfold parse_new, parse. cbn [tl]. rewrite (scan_app _ _ _ _ _ _ _ Hpre).
  cbn [In] in Hf.
  repeat (destruct Hf as [<-|Hf];
          [eexists; split; [reflexivity|split; reflexivity]|]).
  contradiction.
Qed.

Lemma missing_argument_witness :
  exists msg,
    parse_new two_devices ["gpuowl"; "-supersafe"; "-uid"]
    = Some (mkOutcome false (set_safe true Args_new) [msg])
    /\ msg = ("-uid expects userName/computerName" ++ String "010"%char EmptyString)%string
    /\ String.prefix "-uid" msg = true.
Proof.
  apply (missing_argument two_devices "gpuowl" ["-supersafe"] "-uid"
           (set_safe true Args_new) []); [|reflexivity].
  cbn. tauto.
Defined.

(** Counterexample to C8 as it is worded.  In [gpuowl -uid -logstep] the
    last token is [-logstep], but the loop reads it as the argument of
    [-uid]: [parse] returns [true] and logs the configuration line only.
    In [gpuowl -bogus -uid] the loop stops at [-bogus]: [parse] returns
    [false], but the message names [-bogus], not [-uid]. *)
Lemma missing_argument_not_reached :
  parse_new two_devices ["gpuowl"; "-uid"; "-logstep"]
  = Some (mkOutcome true
            (mkArgs EmptyString "-logstep" 20000 10000000 200000 (-1)
               false false false false)
            [("Config: -logstep 20000 -savestep 10000000 -checkstep 200000 -uid -logstep"
              ++ String "010"%char EmptyString)%string])
  /\ parse_new two_devices ["gpuowl"; "-bogus"; "-uid"]
     = Some (mkOutcome false Args_new
               [("Argument '-bogus' not understood"
                 ++ String "010"%char EmptyString)%string]).
Proof. split; vm_compute; reflexivity. Qed.

(** ** A value flag given more than once *)

Lemma scan_logstep dv v rest a l :
  scan dv ("-logstep" :: v :: rest) a l
  = if atoi v <=? 0
    then Stop (set_logStep (atoi v) a) (log (Msg.invalid "-logstep" v) l)
    else scan dv rest (set_logStep (atoi v) a) l.
Proof. reflexivity. Qed.

Lemma scan_savestep dv v rest a l :
  scan dv ("-savestep" :: v :: rest) a l
  = if atoi v <=? 0
    then Stop (set_saveStep (atoi v) a) (log (Msg.invalid "-savestep" v) l)
    else scan dv rest (set_saveStep (atoi v) a) l.
Proof. reflexivity. Qed.

Lemma scan_checkstep dv v rest a l :
  scan dv ("-checkstep" :: v :: rest) a l
  = if atoi v <=? 0
    then Stop (set_checkStep (atoi v) a) (log (Msg.invalid "-checkstep" v) l)
    else scan dv rest (set_checkStep (atoi v) a) l.
Proof. reflexivity. Qed.

Lemma scan_device dv v rest a l :
  scan dv ("-device" :: v :: rest) a l
  = if ((atoi v <? 0) || (atoi v >=? getNumberOfDevices dv))%bool
    then Stop (set_device (atoi v) a)
           (log (Msg.invalid_device (atoi v) (getNumberOfDevices dv)) l)
    else scan dv rest (set_device (atoi v) a) l.
Proof. reflexivity. Qed.

(** A rejected argument stops [parse], whatever follows. *)
Lemma rejected_stops dv argv0 pre f v post a1 l1 :
  scan dv pre Args_new [] = Done a1 l1 ->
  rejected dv f v ->
  exists o, parse_new dv (argv0 :: pre ++ flag_name f :: v :: post) = Some o
            /\ returned o = false.
Proof.
  intros Hpre Hrej. unfold parse_new, parse. cbn [tl].
  rewrite (scan_app _ _ _ _ _ _ _ Hpre).
  destruct f; cbn [flag_name rejected] in *; try contradiction.
  - rewrite scan_logstep. apply Z.leb_le in Hrej. rewrite Hrej. eauto.
  - rewrite scan_savestep. apply Z.leb_le in Hrej. rewrite Hrej. eauto.
  - rewrite scan_checkstep. apply Z.leb_le in Hrej. rewrite Hrej. eauto.
  - rewrite scan_device.
    assert (E : ((atoi v <? 0) || (atoi v >=? getNumberOfDevices dv))%bool = true).
    { apply orb_true_iff. rewrite Z.geb_leb, Z.ltb_lt, Z.leb_le. lia. }
    rewrite E. eauto.
Qed.

(** The last occurrence of a flag decides its field. *)
Lemma last_decides dv argv0 pre f v post a1 l1 o :
  scan dv pre Args_new [] = Done a1 l1 ->
  ~ In (flag_name f) (flags_of post) ->
  parse_new dv (argv0 :: pre ++ flag_name f :: v :: post) = Some o ->
  returned o = true ->
  holds f v (object o).
Proof.
  intros Hpre Hlast H Ht.
  destruct (parse_true_inv _ _ _ H Ht) as (a & Hr & -> & _). cbn [tl] in Hr.
  pose proof (run_scanned _ _ _ _ Hr (scanned_new dv)) as (_ & Hpos & _).
  apply (run_app_inv _ _ _ _ _ _ _ _ Hpre) in Hr.
  apply run_cons_inv in Hr. destruct Hr as (rest1 & a2 & Hi & Hr).
  destruct f; cbn [flag_name holds] in *; inversion Hi; subst;
    unfold normalized;
    cbn [logStep saveStep checkStep uid clArgs device].
  - rewrite (run_keeps_logStep _ _ _ _ Hr Hlast). reflexivity.
  - rewrite (run_keeps_saveStep _ _ _ _ Hr Hlast). cbn [saveStep set_saveStep].
    rewrite step_or_default_set by assumption. reflexivity.
  - rewrite (run_keeps_checkStep _ _ _ _ Hr Hlast). cbn [checkStep set_checkStep].
    rewrite step_or_default_set by assumption. reflexivity.
  - rewrite (run_keeps_uid _ _ _ _ Hr Hlast). reflexivity.
  - rewrite (run_keeps_clArgs _ _ _ _ Hr Hlast). reflexivity.
  - rewrite (run_keeps_device _ _ _ _ Hr Hlast). reflexivity.
Qed.

(** C9, as the code has it.  Let a value flag with the argument [v] be
    read by the loop (the tokens [pre] before it are consumed).  If the
    check on [v] fails, [parse] returns [false], whatever follows, a later
    valid occurrence included.  If the flag is not read again after it and
    [parse] returns [true], the field holds the value of this last
    occurrence for [-logstep], [-uid], [-cl] and [-device]; [saveStep] and
    [checkStep] hold that value raised to [logStep] and made a multiple of
    [logStep]. *)
Theorem last_occurrence dv argv0 pre f v post a1 l1 :
  scan dv pre Args_new [] = Done a1 l1 ->
  (rejected dv f v ->
   exists o, parse_new dv (argv0 :: pre ++ flag_name f :: v :: post) = Some o
             /\ returned o = false)
  /\ (~ In (flag_name f) (flags_of post) ->
      forall o,
        parse_new dv (argv0 :: pre ++ flag_name f :: v :: post) = Some o ->
        returned o = true ->
        holds f v (object o)).
Proof.
  intros Hpre. split.
  - intros Hrej. eapply rejected_stops; eassumption.
  - intros Hlast o H Ht. eapply last_decides; eassumption.
Qed.

Lemma last_occurrence_witness :
  (exists o, parse_new two_devices ["gpuowl"; "-logstep"; "0"; "-logstep"; "5"] = Some o
             /\ returned o = false)
  /\ (exists o,
         parse_new two_devices
           ["gpuowl"; "-savestep"; "5"; "-logstep"; "3"; "-savestep"; "100"] = Some o
         /\ returned o = true /\ saveStep (object o) = 99
         /\ holds FSaveStep "100" (object o)).
Proof.
  split.
  - apply (last_occurrence two_devices "gpuowl" [] FLogStep "0" ["-logstep"; "5"]
             Args_new [] eq_refl).
    vm_compute. discriminate.
  - eexists. split; [reflexivity|]. split; [reflexivity|]. split; [reflexivity|].
    apply (last_occurrence two_devices "gpuowl" ["-savestep"; "5"; "-logstep"; "3"]
             FSaveStep "100" [] (set_logStep 3 (set_saveStep 5 Args_new)) [] eq_refl);
      [cbn; tauto|reflexivity|reflexivity].
Defined.

(** Counterexample to C9 as it is worded: after
    [-savestep 40000 -savestep 70000], [parse] returns [true] and
    [saveStep] is 60000; the field holds neither 70000, the value of the
    last occurrence, nor 40000. *)
Lemma last_occurrence_not_held :
  exists o,
    parse_new two_devices
      ["gpuowl"; "-savestep"; "40000"; "-savestep"; "70000"] = Some o
    /\ returned o = true
    /\ atoi "70000" = 70000
    /\ saveStep (object o) = 60000
    /\ saveStep (object o) <> atoi "70000".
Proof.
  exists (mkOutcome true
            (mkArgs EmptyString EmptyString 20000 60000 200000 (-1)
               false false false false)
            [config_line
               (mkArgs EmptyString EmptyString 20000 60000 200000 (-1)
                  false false false false)]).
  split; [vm_compute; reflexivity|].
  cbn [returned object saveStep].
  repeat split; try (vm_compute; reflexivity). vm_compute. discriminate.
Qed.

(** ** The help *)

Lemma log_devices_eq (infos : list string) (i : Z) (l : Log) :
  log_devices i infos l = l ++ device_lines i infos.
Proof.
  revert i l. induction infos as [|info rest IH]; intros i l; cbn.
  - symmetry. apply app_nil_r.
  - rewrite IH. unfold log. rewrite <- app_assoc. reflexivity.
Qed.

Lemma device_lines_length (infos : list string) (i : Z) :
  List.length (device_lines i infos) = List.length infos.
Proof. revert i. induction infos; intros i; cbn; auto. Qed.

(** C10.  Let [-h] or [--help] be read by the loop (the tokens [pre]
    before it are consumed).  [parse] returns [false] whatever follows, the
    object being as [pre] left it.  It has logged the options, one line for
    each listed device, and the two closing paragraphs; the devices listed
    are the first 16 available ones, all of them when there are fewer: at
    most 16 lines. *)
Theorem help_lists_devices dv argv0 pre h post a1 l1 :
  h = "-h" \/ h = "--help" ->
  scan dv pre Args_new [] = Done a1 l1 ->
  parse_new dv (argv0 :: pre ++ h :: post)
  = Some (mkOutcome false a1
            ([Msg.options a1] ++ listed dv ++ [Msg.files; Msg.worktodo]))
  /\ List.length (listed dv) = Nat.min 16 (List.length (available dv))
  /\ (List.length (listed dv) <= 16)%nat.
Proof.
  intros Hh Hpre. pose proof (scan_Done_run _ _ _ _ _ _ Hpre) as [_ ->].
  assert (Hlen : List.length (listed dv) = Nat.min 16 (List.length (available dv))).
  { unfold listed, getDeviceIDs. rewrite device_lines_length. apply length_firstn. }
  split; [|split; [exact Hlen|rewrite Hlen; apply Nat.le_min_l]].
  unfold parse_new, parse. cbn [tl]. rewrite (scan_app _ _ _ _ _ _ _ Hpre).
  assert (Es : scan dv (h :: post) a1 [] = Stop a1 (usage dv a1 []))
    by (destruct Hh as [->| ->]; reflexivity).
  rewrite Es. unfold usage, listed, log. rewrite log_devices_eq.
  cbn [app]. rewrite <- app_assoc. reflexivity.
Qed.

Lemma help_lists_devices_witness :
  parse_new many_devices ["gpuowl"; "-legacy"; "-h"; "-bogus"]
  = Some (mkOutcome false (set_useLegacy true Args_new)
            ([Msg.options Args_new] ++ listed many_devices
             ++ [Msg.files; Msg.worktodo]))
  /\ getNumberOfDevices many_devices = 20
  /\ List.length (listed many_devices) = 16%nat.
Proof.
  destruct (help_lists_devices many_devices "gpuowl" ["-legacy"] "-h" ["-bogus"]
              (set_useLegacy true Args_new) [] (or_introl eq_refl) eq_refl)
    as (Hp & Hl & _).
  split; [exact Hp|]. split; [reflexivity|exact Hl].
Defined.

(** * Further properties of [parse] *)

(** ** The assertion *)

(** X1.  On a freshly constructed object [parse] always returns: the loop
    keeps [logStep > 0], so [assert(logStep > 0)] holds whenever it is
    reached.  The assertion is not idle: on an object whose [logStep] has
    been set to 0 beforehand, [parse] without options aborts. *)
Theorem assertion_holds dv argv0 :
  (forall argv, exists o, parse_new dv argv = Some o)
  /\ parse dv [argv0] (set_logStep 0 Args_new) [] = None.
Proof. split; [intros argv; apply parse_returns|reflexivity]. Qed.

(** ** Tokens that stop the loop *)

Lemma streq_neq (a b : string) : a <> b -> streq a b = false.
Proof. apply String.eqb_neq. Qed.

(** X2.  A token that is none of the recognized flags, met by the loop
    after the tokens [pre], stops [parse]: it returns [false], the object
    is as [pre] left it, the only message is [Argument '...' not
    understood], and the tokens after it play no role. *)
Theorem unknown_token dv argv0 pre arg post a1 l1 :
  ~ In arg recognized ->
  scan dv pre Args_new [] = Done a1 l1 ->
  parse_new dv (argv0 :: pre ++ arg :: post)
  = Some (mkOutcome false a1 [Msg.not_understood arg]).
Proof.
  intros Hn Hpre. pose proof (scan_Done_run _ _ _ _ _ _ Hpre) as [_ ->].
  unfold parse_new, parse. cbn [tl]. rewrite (scan_app _ _ _ _ _ _ _ Hpre).
  unfold recognized in Hn. cbn [In] in Hn. cbn [scan].
  rewrite !streq_neq by (intros ->; tauto). reflexivity.
Qed.

Lemma unknown_token_witness :
  parse_new two_devices ["gpuowl"; "-legacy"; "-bogus"; "-h"]
  = Some (mkOutcome false (set_useLegacy true Args_new)
            [Msg.not_understood "-bogus"]).
Proof.
  apply (unknown_token two_devices "gpuowl" ["-legacy"] "-bogus" ["-h"]
           (set_useLegacy true Args_new) []); [|reflexivity].
  cbn. intuition discriminate.
Defined.

(** X3.  [-time] not followed by [kernels], be it followed by another
    token or by none, stops [parse]: it returns [false] with the object as
    the preceding tokens left it and the only message [-time expects
    'kernels']. *)
Theorem time_without_kernels dv argv0 pre rest a1 l1 :
  hd_error rest <> Some "kernels" ->
  scan dv pre Args_new [] = Done a1 l1 ->
  parse_new dv (argv0 :: pre ++ "-time" :: rest)
  = Some (mkOutcome false a1 [Msg.time_expects]).
Proof.
  intros Hn Hpre. pose proof (scan_Done_run _ _ _ _ _ _ Hpre) as [_ ->].
  unfold parse_new, parse. cbn [tl]. rewrite (scan_app _ _ _ _ _ _ _ Hpre).
  destruct rest as [|v post]; [reflexivity|].
  change (scan dv ("-time" :: v :: post) a1 [])
    with (if streq v "kernels" then scan dv post (set_timeKernels true a1) []
          else Stop a1 (log Msg.time_expects [])).
  rewrite streq_neq; [reflexivity|].
  intros ->. apply Hn. reflexivity.
Qed.

Lemma time_without_kernels_witness :
  parse_new two_devices ["gpuowl"; "-time"; "kernel"; "-legacy"]
  = Some (mkOutcome false Args_new [Msg.time_expects])
  /\ parse_new two_devices ["gpuowl"; "-time"]
     = Some (mkOutcome false Args_new [Msg.time_expects]).
Proof.
  split.
  - apply (time_without_kernels two_devices "gpuowl" [] ["kernel"; "-legacy"]
             Args_new []); [cbn; discriminate|reflexivity].
  - apply (time_without_kernels two_devices "gpuowl" [] [] Args_new []);
      [cbn; discriminate|reflexivity].
Defined.

(** X4.  A value flag whose argument fails its check (a step that is not
    positive, a device that is not in [0, nDevices)) stops [parse], which
    returns [false] whatever follows.  The assignment is not undone: the
    object holds the rejected value in the field of the flag, the other
    fields being as the preceding tokens left them.  The only message
    names the flag and the rejected argument. *)
Theorem rejected_argument dv argv0 pre f v post a1 l1 :
  rejected dv f v ->
  scan dv pre Args_new [] = Done a1 l1 ->
  parse_new dv (argv0 :: pre ++ flag_name f :: v :: post)
  = Some (mkOutcome false (store f v a1) [rejection dv f v]).
Proof.
  intros Hrej Hpre. pose proof (scan_Done_run _ _ _ _ _ _ Hpre) as [_ ->].
  unfold parse_new, parse. cbn [tl]. rewrite (scan_app _ _ _ _ _ _ _ Hpre).
  destruct f; cbn [flag_name rejected store rejection] in *; try contradiction.
  - rewrite scan_logstep. apply Z.leb_le in Hrej. rewrite Hrej. reflexivity.
  - rewrite scan_savestep. apply Z.leb_le in Hrej. rewrite Hrej. reflexivity.
  - rewrite scan_checkstep. apply Z.leb_le in Hrej. rewrite Hrej. reflexivity.
  - rewrite scan_device.
    assert (E : ((atoi v <? 0) || (atoi v >=? getNumberOfDevices dv))%bool = true).
    { apply orb_true_iff. rewrite Z.geb_leb, Z.ltb_lt, Z.leb_le. lia. }
    rewrite E. reflexivity.
Qed.

Lemma rejected_argument_witness :
  parse_new two_devices ["gpuowl"; "-uid"; "u"; "-device"; "2"; "-legacy"]
  = Some (mkOutcome false (set_device 2 (set_uid "u" Args_new))
            [Msg.invalid_device 2 2])
  /\ parse_new two_devices ["gpuowl"; "-logstep"; "-5"]
     = Some (mkOutcome false (set_logStep (-5) Args_new)
               [Msg.invalid "-logstep" "-5"]).
Proof.
  split.
  - apply (rejected_argument two_devices "gpuowl" ["-uid"; "u"] FDevice "2"
             ["-legacy"] (set_uid "u" Args_new) []); [|reflexivity].
    right. vm_compute. discriminate.
  - apply (rejected_argument two_devices "gpuowl" [] FLogStep "-5" []
             Args_new []); [|reflexivity].
    vm_compute. discriminate.
Defined.

(** ** What [parse] logs *)

Lemma usage_eq dv a l : usage dv a l = l ++ help_text dv a.
Proof.
  unfold usage, help_text, listed, log. rewrite log_devices_eq.
  rewrite <- !app_assoc. reflexivity.
Qed.

(** An iteration that returns has logged one message, or the help;
    otherwise the loop goes on with fewer tokens. *)
Lemma scan_Stop_inv dv arg rest a l a' l' :
  scan dv (arg :: rest) a l = Stop a' l' ->
  ((exists msg, l' = l ++ [msg]) \/ l' = l ++ help_text dv a')
  \/ exists rest1 a1,
       scan dv rest1 a1 l = Stop a' l'
       /\ (List.length rest1 <= List.length rest)%nat.
Proof.
  cbn [scan]. intros H.
  destruct (streq arg "-h" || streq arg "--help")%bool.
  { injection H as <- <-. left. right. apply usage_eq. }
  repeat match type of H with
         | (if ?c then _ else _) = _ => destruct c
         | match ?r with [] => _ | _ :: _ => _ end = _ => destruct r
         end;
    first [ injection H as <- <-; left; left; eexists; reflexivity
          | right; eexists; eexists; split; [exact H|cbn [List.length]; lia] ].
Qed.

Lemma scan_Stop_log dv args a l a' l' :
  scan dv args a l = Stop a' l' ->
  (exists msg, l' = l ++ [msg]) \/ l' = l ++ help_text dv a'.
Proof.
  remember (List.length args) as n eqn:Hn.
  revert args a Hn. induction n as [n IH] using lt_wf_ind.
  intros [|arg rest] a Hn H; [discriminate|].
  apply scan_Stop_inv in H. destruct H as [H|(rest1 & a1 & Hs & Hlen)];
    [assumption|].
  cbn [List.length] in Hn.
  exact (IH (List.length rest1) ltac:(lia) rest1 a1 eq_refl Hs).
Qed.

(** X5.  When [parse] returns [false] it has logged either exactly one
    message (the diagnostic of the token that stopped it) or the help:
    the options, the device lines and the two closing paragraphs, printed
    for the object as it is returned. *)
Theorem failure_log dv argv o :
  parse_new dv argv = Some o -> returned o = false ->
  (exists msg, logged o = [msg]) \/ logged o = help_text dv (object o).
Proof.
  unfold parse_new, parse. intros H Hf.
  destruct (scan dv (tl argv) Args_new []) as [a l|a l] eqn:Es.
  - destruct (normalize a l) as [[a2 l2]|]; [|discriminate].
    injection H as <-. discriminate.
  - injection H as <-. cbn [logged object].
    exact (scan_Stop_log _ _ _ _ _ _ Es).
Qed.

Lemma failure_log_witness :
  (exists msg,
      logged (mkOutcome false (set_safe true Args_new)
                [Msg.expects "-uid" "userName/computerName"]) = [msg])
  \/ logged (mkOutcome false (set_safe true Args_new)
               [Msg.expects "-uid" "userName/computerName"])
     = help_text two_devices (set_safe true Args_new).
Proof.
  exact (failure_log two_devices ["gpuowl"; "-supersafe"; "-uid"]
           (mkOutcome false (set_safe true Args_new)
              [Msg.expects "-uid" "userName/computerName"])
           eq_refl eq_refl).
Defined.

(** ** The boolean flags *)

Section BoolFlag.

Context (field : Args -> bool) (flag : string).

Hypothesis iter_sets :
  forall dv args a rest a',
    iter dv args a rest a' ->
    field a' = (field a || streq (hd EmptyString args) flag)%bool.

Lemma run_sets dv args a a' :
  run dv args a a' ->
  (field a' = true <-> field a = true \/ In flag (flags_of args)).
Proof.
  induction 1 as [a|args a rest a1 a' Hi _ IH]; [cbn; tauto|].
  destruct (iter_flags _ _ _ _ _ Hi) as (f & more & -> & Ef).
  rewrite Ef, IH, (iter_sets _ _ _ _ _ Hi). cbn [hd In].
  rewrite orb_true_iff. unfold streq. rewrite String.eqb_eq. tauto.
Qed.

End BoolFlag.

Ltac iter_sets :=
  intros ? ? ? ? ? Hi; destruct Hi; cbn;
  rewrite ?orb_false_r, ?orb_true_r; reflexivity.

Lemma run_safe dv args a a' :
  run dv args a a' ->
  (safe a' = true <-> safe a = true \/ In "-supersafe" (flags_of args)).
Proof. apply run_sets. iter_sets. Qed.

Lemma run_selfTest dv args a a' :
  run dv args a a' ->
  (selfTest a' = true <-> selfTest a = true \/ In "-selftest" (flags_of args)).
Proof. apply run_sets. iter_sets. Qed.

Lemma run_useLegacy dv args a a' :
  run dv args a a' ->
  (useLegacy a' = true <-> useLegacy a = true \/ In "-legacy" (flags_of args)).
Proof. apply run_sets. iter_sets. Qed.

Lemma run_time dv args a a' :
  run dv args a a' ->
  (timeKernels a' = true <-> timeKernels a = true \/ In "-time" (flags_of args)).
Proof. apply run_sets. iter_sets. Qed.

(** X6.  After a successful [parse], [safe], [selfTest] and [useLegacy]
    are [true] exactly when [-supersafe], [-selftest] and [-legacy] were
    read as flags, however many times and in whatever order;
    [timeKernels] is [true] exactly when [-time] was read and [logStep] is
    not 1. *)
Theorem boolean_flags dv argv0 args o :
  parse_new dv (argv0 :: args) = Some o -> returned o = true ->
  (safe (object o) = true <-> In "-supersafe" (flags_of args))
  /\ (selfTest (object o) = true <-> In "-selftest" (flags_of args))
  /\ (useLegacy (object o) = true <-> In "-legacy" (flags_of args))
  /\ (timeKernels (object o) = true
      <-> In "-time" (flags_of args) /\ logStep (object o) <> 1).
Proof.
  intros H Ht. destruct (parse_true_inv _ _ _ H Ht) as (a & Hr & -> & _).
  cbn [tl] in Hr. unfold normalized.
  cbn [safe selfTest useLegacy timeKernels logStep].
  rewrite (run_safe _ _ _ _ Hr), (run_selfTest _ _ _ _ Hr),
    (run_useLegacy _ _ _ _ Hr).
  rewrite andb_true_iff, negb_true_iff, Z.eqb_neq, (run_time _ _ _ _ Hr).
  cbn. intuition discriminate.
Qed.

Lemma boolean_flags_witness :
  (safe sample_args = true <-> In "-supersafe" (flags_of (tl sample_argv)))
  /\ (selfTest sample_args = true <-> In "-selftest" (flags_of (tl sample_argv)))
  /\ (useLegacy sample_args = true <-> In "-legacy" (flags_of (tl sample_argv)))
  /\ (timeKernels sample_args = true
      <-> In "-time" (flags_of (tl sample_argv)) /\ logStep sample_args <> 1).
Proof.
  exact (boolean_flags two_devices "gpuowl" (tl sample_argv)
           (mkOutcome true sample_args [config_line sample_args])
           eq_refl eq_refl).
Defined.

(** X7.  A successful [parse] logs the configuration line of the object it
    returns, as its last message.  The only other message is the warning
    about the kernels, logged before it exactly when [-time] was read and
    [logStep] is 1. *)
Theorem success_log_shape dv argv0 args o :
  parse_new dv (argv0 :: args) = Some o -> returned o = true ->
  (In "-time" (flags_of args) /\ logStep (object o) = 1 ->
   logged o = [Msg.ignoring_time; config_line (object o)])
  /\ (~ (In "-time" (flags_of args) /\ logStep (object o) = 1) ->
      logged o = [config_line (object o)]).
Proof.
  intros H Ht. destruct (parse_true_inv _ _ _ H Ht) as (a & Hr & -> & ->).
  cbn [tl] in Hr. unfold success_log. cbn [normalized logStep].
  pose proof (run_time _ _ _ _ Hr) as Htk. cbn [Args_new timeKernels] in Htk.
  destruct (timeKernels a); destruct (logStep a =? 1) eqn:E;
    [apply Z.eqb_eq in E|apply Z.eqb_neq in E
     |apply Z.eqb_eq in E|apply Z.eqb_neq in E]; cbn [andb app];
    split; intros Hc; try reflexivity; exfalso; intuition congruence.
Qed.

Lemma success_log_shape_witness :
  exists o,
    parse_new two_devices ["gpuowl"; "-time"; "kernels"; "-logstep"; "1"] = Some o
    /\ logged o = [Msg.ignoring_time; config_line (object o)].
Proof.
  eexists. split; [reflexivity|].
  apply (success_log_shape two_devices "gpuowl"
           ["-time"; "kernels"; "-logstep"; "1"] _ eq_refl eq_refl).
  split; [cbn; tauto|reflexivity].
Defined.

(** ** Flags that are not given *)

Lemma run_device_nonneg dv args a a' :
  run dv args a a' ->
  0 <= device a \/ In "-device" (flags_of args) -> 0 <= device a'.
Proof.
  induction 1 as [a|args a rest a1 a' Hi _ IH]; [cbn; tauto|].
  destruct (iter_flags _ _ _ _ _ Hi) as (f & more & E & Ef).
  rewrite Ef. cbn [In]. intros Hd. apply IH.
  destruct Hi; cbn [device set_device set_logStep set_saveStep set_checkStep
                    set_uid set_safe set_clArgs set_selfTest set_timeKernels
                    set_useLegacy] in *;
    injection E as <- _;
    try (left; lia);
    (destruct Hd as [Hd|[Hd|Hd]]; [left; assumption|discriminate|right; assumption]).
Qed.

(** X8.  After a successful [parse], a field whose flag was not read holds
    the value given by the constructor: [logStep] is 20000 without
    [-logstep], [uid] and [clArgs] are empty without [-uid] and [-cl].
    [device] is -1 exactly when [-device] was not read. *)
Theorem absent_flags dv argv0 args o :
  parse_new dv (argv0 :: args) = Some o -> returned o = true ->
  (~ In "-logstep" (flags_of args) -> logStep (object o) = 20000)
  /\ (~ In "-uid" (flags_of args) -> uid (object o) = EmptyString)
  /\ (~ In "-cl" (flags_of args) -> clArgs (object o) = EmptyString)
  /\ (device (object o) = -1 <-> ~ In "-device" (flags_of args)).
Proof.
  intros H Ht. destruct (parse_true_inv _ _ _ H Ht) as (a & Hr & -> & _).
  cbn [tl] in Hr. unfold normalized. cbn [logStep uid clArgs device].
  split; [intros Hn; exact (run_keeps_logStep _ _ _ _ Hr Hn)|].
  split; [intros Hn; exact (run_keeps_uid _ _ _ _ Hr Hn)|].
  split; [intros Hn; exact (run_keeps_clArgs _ _ _ _ Hr Hn)|].
  split.
  - intros Hd Hin.
    pose proof (run_device_nonneg _ _ _ _ Hr (or_intror Hin)). lia.
  - intros Hn. exact (run_keeps_device _ _ _ _ Hr Hn).
Qed.

Lemma absent_flags_witness :
  (~ In "-logstep" (flags_of (tl sample_argv)) -> logStep sample_args = 20000)
  /\ (~ In "-uid" (flags_of (tl sample_argv)) -> uid sample_args = EmptyString)
  /\ (~ In "-cl" (flags_of (tl sample_argv)) -> clArgs sample_args = EmptyString)
  /\ (device sample_args = -1 <-> ~ In "-device" (flags_of (tl sample_argv))).
Proof.
  exact (absent_flags two_devices "gpuowl" (tl sample_argv)
           (mkOutcome true sample_args [config_line sample_args])
           eq_refl eq_refl).
Defined.

(** X9.  Without [-savestep], a successful [parse] leaves
    [saveStep = 500 * logStep] as long as this product is an [int];
    without [-checkstep] it leaves [checkStep = 10 * logStep] as long as
    that product is an [int].  The other flags, [-logstep] included, may
    be present. *)
Theorem default_steps_exact dv argv0 args o :
  parse_new dv (argv0 :: args) = Some o -> returned o = true ->
  (~ In "-savestep" (flags_of args) ->
   500 * logStep (object o) <= Int.max_int ->
   saveStep (object o) = 500 * logStep (object o))
  /\ (~ In "-checkstep" (flags_of args) ->
      10 * logStep (object o) <= Int.max_int ->
      checkStep (object o) = 10 * logStep (object o)).
Proof.
  intros H Ht. destruct (parse_true_inv _ _ _ H Ht) as (a & Hr & -> & _).
  cbn [tl] in Hr.
  pose proof (run_scanned _ _ _ _ Hr (scanned_new dv)) as (_ & Hpos & _).
  unfold normalized. cbn [saveStep checkStep logStep].
  split; intros Hn Hsmall.
  - rewrite (run_keeps_saveStep _ _ _ _ Hr Hn). cbn [saveStep Args_new].
    unfold step_or_default, Int.mul, Int.max_int in *. cbn [Z.eqb].
    rewrite wrap_small
      by (unfold Int.in_range, Int.min_int, Int.max_int; lia).
    rewrite (Z.mul_comm (logStep a) 500).
    apply round_step_fixed; [lia|apply Z.mod_mul; lia].
  - rewrite (run_keeps_checkStep _ _ _ _ Hr Hn). cbn [checkStep Args_new].
    unfold step_or_default, Int.mul, Int.max_int in *. cbn [Z.eqb].
    rewrite wrap_small
      by (unfold Int.in_range, Int.min_int, Int.max_int; lia).
    rewrite (Z.mul_comm (logStep a) 10).
    apply round_step_fixed; [lia|apply Z.mod_mul; lia].
Qed.

Lemma default_steps_exact_witness :
  parse_new two_devices ["gpuowl"; "-logstep"; "300000"; "-device"; "0"]
  = Some (mkOutcome true
            (mkArgs EmptyString EmptyString 300000 150000000 3000000 0
               false false false false)
            [config_line
               (mkArgs EmptyString EmptyString 300000 150000000 3000000 0
                  false false false false)])
  /\ 150000000 = 500 * 300000
  /\ 3000000 = 10 * 300000.
Proof.
  split; [vm_compute; reflexivity|].
  destruct (default_steps_exact two_devices "gpuowl"
              ["-logstep"; "300000"; "-device"; "0"]
              (mkOutcome true
                 (mkArgs EmptyString EmptyString 300000 150000000 3000000 0
                    false false false false)
                 [config_line
                    (mkArgs EmptyString EmptyString 300000 150000000 3000000 0
                       false false false false)])
              ltac:(vm_compute; reflexivity) eq_refl)
    as [Hs Hc].
  split.
  - apply Hs; [vm_compute; intuition discriminate|vm_compute; discriminate].
  - apply Hc; [vm_compute; intuition discriminate|vm_compute; discriminate].
Defined.

(** ** Options in another order *)

Lemma swap_run dv g1 g2 post a a' :
  option_group g1 -> option_group g2 ->
  hd EmptyString g1 <> hd EmptyString g2 ->
  run dv (g1 ++ g2 ++ post) a a' -> run dv (g2 ++ g1 ++ post) a a'.
Proof.
  intros H1 H2 Hne Hr.
  destruct H1 as [f1 v1| | | |]; destruct H2 as [f2 v2| | | |];
    try destruct f1; try destruct f2;
    cbn [app flag_name hd] in *;
    try (exfalso; apply Hne; reflexivity);
    apply run_cons_inv in Hr; destruct Hr as (r1 & a1 & Hi1 & Hr);
    inversion Hi1; subst; clear Hi1;
    apply run_cons_inv in Hr; destruct Hr as (r2 & a2 & Hi2 & Hr);
    inversion Hi2; subst; clear Hi2;
    (eapply run_iter; [constructor; assumption|]);
    (eapply run_iter; [constructor; assumption|]);
    exact Hr.
Qed.

(** X10.  Two adjacent options with different flags can be exchanged:
    when [parse] returns [true] on a command line, it returns [true] on
    the exchanged one as well, with the same object and the same
    messages. *)
Theorem swap_options dv argv0 pre g1 g2 post a0 l0 o :
  option_group g1 -> option_group g2 ->
  hd EmptyString g1 <> hd EmptyString g2 ->
  scan dv pre Args_new [] = Done a0 l0 ->
  parse_new dv (argv0 :: pre ++ g1 ++ g2 ++ post) = Some o ->
  returned o = true ->
  parse_new dv (argv0 :: pre ++ g2 ++ g1 ++ post) = Some o.
Proof.
  intros H1 H2 Hne Hpre H Ht.
  destruct (parse_true_inv _ _ _ H Ht) as (a & Hr & Eo & El). cbn [tl] in Hr.
  pose proof (scan_Done_run _ _ _ _ _ _ Hpre) as [Hrpre ->].
  apply (run_app_inv _ _ _ _ _ _ _ _ Hpre) in Hr.
  apply (swap_run _ _ _ _ _ _ H1 H2 Hne) in Hr.
  rewrite (parse_run dv argv0 _ a (run_app_run _ _ _ _ _ _ Hrpre Hr)).
  destruct o as [b oa ol]. cbn in Ht, Eo, El. subst. reflexivity.
Qed.

Lemma swap_options_witness :
  parse_new two_devices
    ["gpuowl"; "-legacy"; "-savestep"; "100"; "-logstep"; "3"; "-uid"; "u"]
  = Some (mkOutcome true
            (mkArgs EmptyString "u" 3 99 30 (-1) false false true false)
            [config_line
               (mkArgs EmptyString "u" 3 99 30 (-1) false false true false)]).
Proof.
  exact (swap_options two_devices "gpuowl" ["-legacy"] ["-logstep"; "3"]
           ["-savestep"; "100"] ["-uid"; "u"] (set_useLegacy true Args_new) []
           (mkOutcome true
              (mkArgs EmptyString "u" 3 99 30 (-1) false false true false)
              [config_line
                 (mkArgs EmptyString "u" 3 99 30 (-1) false false true false)])
           (og_value FLogStep "3") (og_value FSaveStep "100")
           ltac:(cbn; discriminate) eq_refl eq_refl eq_refl).
Defined.

(** ** An occurrence that a later one overrides *)

Lemma store_agree f v a b : agree_except f a b -> store f v a = store f v b.
Proof.
  unfold agree_except.
  destruct a, b, f; cbn; intros E; injection E; intros; subst; reflexivity.
Qed.

Lemma agree_store f v a : agree_except f (store f v a) a.
Proof. unfold agree_except. destruct a, f; reflexivity. Qed.

Lemma iter_agree dv f args a rest a' b :
  iter dv args a rest a' -> agree_except f a b ->
  exists b', iter dv args b rest b' /\ agree_except f a' b'.
Proof.
  intros Hi Hab.
  destruct Hi; (eexists; split; [constructor; assumption|]);
    unfold agree_except in *;
    destruct a, b, f; cbn in *; injection Hab; intros; subst; reflexivity.
Qed.

Lemma run_agree dv f args a a' b :
  run dv args a a' -> agree_except f a b ->
  exists b', run dv args b b' /\ agree_except f a' b'.
Proof.
  intros Hr. revert b. induction Hr as [a|args a rest a1 a' Hi _ IH]; intros b Hab.
  - exists b. auto with scan.
  - destruct (iter_agree _ f _ _ _ _ _ Hi Hab) as (b1 & Hib & Hab1).
    destruct (IH _ Hab1) as (b' & Hrb & Hab').
    exists b'. eauto with scan.
Qed.

(** A value flag that does not return stores its argument. *)
Lemma iter_value_inv dv f v rest a r a1 :
  iter dv (flag_name f :: v :: rest) a r a1 ->
  r = rest /\ a1 = store f v a
  /\ forall b rest', iter dv (flag_name f :: v :: rest') b rest' (store f v b).
Proof.
  destruct f; cbn [flag_name store]; inversion 1; subst;
    (split; [reflexivity|]); (split; [reflexivity|]);
    intros b rest'; constructor; assumption.
Qed.

(** X11.  An occurrence of a value flag that is followed, later on the
    command line, by another occurrence of the same flag can be removed
    together with its argument: when [parse] returns [true] with both
    occurrences, it returns [true] without the earlier one, with the same
    object and the same messages. *)
Theorem overridden_occurrence dv argv0 pre f v1 mid v2 post a0 l0 am lm o :
  scan dv pre Args_new [] = Done a0 l0 ->
  scan dv (pre ++ flag_name f :: v1 :: mid) Args_new [] = Done am lm ->
  parse_new dv (argv0 :: pre ++ flag_name f :: v1 :: mid
                         ++ flag_name f :: v2 :: post) = Some o ->
  returned o = true ->
  parse_new dv (argv0 :: pre ++ mid ++ flag_name f :: v2 :: post) = Some o.
Proof.
  intros Hpre Hmid H Ht.
  destruct (parse_true_inv _ _ _ H Ht) as (a & Hr & Eo & El). cbn [tl] in Hr.
  pose proof (scan_Done_run _ _ _ _ _ _ Hpre) as [Hrpre ->].
  pose proof (scan_Done_run _ _ _ _ _ _ Hmid) as [Hrmid ->].
  (* the first occurrence and the tokens up to the second *)
  apply (run_app_inv _ _ _ _ _ _ _ _ Hpre) in Hrmid.
  apply run_cons_inv in Hrmid. destruct Hrmid as (r1 & a1 & Hi1 & Hrmid).
  apply iter_value_inv in Hi1. destruct Hi1 as (-> & -> & _).
  destruct (run_agree _ f _ _ _ a0 Hrmid (agree_store f v1 a0))
    as (bm & Hrb & Hagree).
  (* the second occurrence and what follows it *)
  change (pre ++ flag_name f :: v1 :: mid ++ flag_name f :: v2 :: post)
    with (pre ++ (flag_name f :: v1 :: mid) ++ flag_name f :: v2 :: post) in Hr.
  rewrite app_assoc in Hr.
  apply (run_app_inv _ _ _ _ _ _ _ _ Hmid) in Hr.
  apply run_cons_inv in Hr. destruct Hr as (r2 & a2 & Hi2 & Hr).
  apply iter_value_inv in Hi2. destruct Hi2 as (-> & -> & Hi2).
  rewrite (store_agree f v2 _ _ Hagree) in Hr.
  assert (Hall : run dv (pre ++ mid ++ flag_name f :: v2 :: post) Args_new a).
  { apply (run_app_run _ _ _ _ _ _ Hrpre).
    apply (run_app_run _ _ _ _ _ _ Hrb).
    eapply run_iter; [apply Hi2|exact Hr]. }
  rewrite (parse_run dv argv0 _ a Hall).
  destruct o as [b oa ol]. cbn in Ht, Eo, El. subst. reflexivity.
Qed.

Lemma overridden_occurrence_witness :
  parse_new two_devices
    ["gpuowl"; "-legacy"; "-logstep"; "3"; "-savestep"; "100"]
  = Some (mkOutcome true
            (mkArgs EmptyString EmptyString 3 99 30 (-1) false false true false)
            [config_line
               (mkArgs EmptyString EmptyString 3 99 30 (-1)
                  false false true false)]).
Proof.
  exact (overridden_occurrence two_devices "gpuowl" [] FLogStep "7" ["-legacy"]
           "3" ["-savestep"; "100"] Args_new []
           (set_useLegacy true (set_logStep 7 Args_new)) []
           (mkOutcome true
              (mkArgs EmptyString EmptyString 3 99 30 (-1) false false true false)
              [config_line
                 (mkArgs EmptyString EmptyString 3 99 30 (-1)
                    false false true false)])
           eq_refl eq_refl eq_refl eq_refl).
Defined.

(** ** Decimal numerals *)

Ltac eval_digit :=
  match goal with
  | |- context [digit_of ?c] =>
      let v := eval vm_compute in (digit_of c) in
      change (digit_of c) with v; cbv iota
  end.

Lemma append_assoc (s1 s2 s3 : string) :
  ((s1 ++ s2) ++ s3 = s1 ++ (s2 ++ s3))%string.
Proof. induction s1 as [|c s1 IH]; cbn; [reflexivity|rewrite IH; reflexivity]. Qed.

Lemma append_empty (s : string) : (s ++ EmptyString)%string = s.
Proof. induction s as [|c s IH]; cbn; [reflexivity|rewrite IH; reflexivity]. Qed.

(** Reading the digits of a decimal numeral, whatever text without a
    leading digit follows them. *)
Lemma read_digits_acc (d : Decimal.uint) (acc : positive) (r : string) :
  starts_with_digit r = false ->
  read_digits (NilEmpty.string_of_uint d ++ r)%string (Z.pos acc)
  = Z.pos (Pos.of_uint_acc d acc).
Proof.
  intros Hr. revert acc. induction d; intros acc;
    cbn [NilEmpty.string_of_uint Pos.of_uint_acc String.append];
    [apply read_digits_none; assumption|..];
    cbn [read_digits]; eval_digit; rewrite <- IHd; f_equal; lia.
Qed.

Lemma read_digits_uint (d : Decimal.uint) (r : string) :
  starts_with_digit r = false ->
  read_digits (NilEmpty.string_of_uint d ++ r)%string 0 = Z.of_N (Pos.of_uint d).
Proof.
  intros Hr. induction d;
    cbn [NilEmpty.string_of_uint Pos.of_uint String.append];
    [apply read_digits_none; assumption|..];
    cbn [read_digits]; eval_digit; [exact IHd|..];
    cbn [Z.of_N]; rewrite <- (read_digits_acc _ _ r Hr); reflexivity.
Qed.

(** The decimal digits of a positive number start with a digit: no sign,
    no white space. *)
Lemma digits_shape (p : positive) :
  exists c s,
    NilEmpty.string_of_uint (Pos.to_uint p) = String c s
    /\ NilZero.string_of_uint (Pos.to_uint p) = String c s
    /\ isspace c = false /\ Ascii.eqb c "-" = false /\ Ascii.eqb c "+" = false.
Proof.
  pose proof (Unsigned.to_uint_nonnil p) as Hn.
  destruct (Pos.to_uint p); [contradiction|..];
    cbn [NilZero.string_of_uint NilEmpty.string_of_uint];
    eexists; eexists; repeat split; reflexivity.
Qed.

Lemma read_digits_pos (p : positive) (r : string) :
  starts_with_digit r = false ->
  read_digits (NilZero.string_of_uint (Pos.to_uint p) ++ r)%string 0 = Z.pos p.
Proof.
  intros Hr. destruct (digits_shape p) as (c & s & E & E' & _).
  rewrite E', <- E, (read_digits_uint _ _ Hr), Unsigned.of_to. reflexivity.
Qed.

Lemma strtol_fmt_d (z : Z) (r : string) :
  starts_with_digit r = false ->
  strtol (fmt_d z ++ r)%string = Int.clamp_long z.
Proof.
  intros Hr. unfold fmt_d, strtol. destruct z as [|p|p];
    cbn [Z.to_int NilZero.string_of_int].
  - change (NilZero.string_of_uint Decimal.zero ++ r)%string with (String "0" r).
    cbn [skip_space]. change (isspace "0") with false.
    change (Ascii.eqb "0" "-") with false. change (Ascii.eqb "0" "+") with false.
    cbv iota. cbn [read_digits]. eval_digit. change (10 * 0 + 0) with 0.
    rewrite (read_digits_none _ _ Hr). reflexivity.
  - pose proof (read_digits_pos p r Hr) as Hp.
    destruct (digits_shape p) as (c & s & _ & E & Hs & Hm & Hpl).
    rewrite E in *. cbn [String.append skip_space] in *.
    rewrite Hs, Hm, Hpl, Hp. reflexivity.
  - cbn [String.append].
    change (skip_space (String "-" (NilZero.string_of_uint (Pos.to_uint p) ++ r)))
      with (String "-" (NilZero.string_of_uint (Pos.to_uint p) ++ r))%string.
    change (Ascii.eqb "-" "-") with true. cbv iota.
    rewrite (read_digits_pos p r Hr). reflexivity.
Qed.

(** [atoi] reads back what [%d] has printed, and ignores any text
    without a leading digit after it. *)
Lemma atoi_fmt_d_app (z : Z) (r : string) :
  Int.in_range z -> starts_with_digit r = false ->
  atoi (fmt_d z ++ r)%string = z.
Proof.
  intros Hz Hr. unfold atoi. rewrite (strtol_fmt_d _ _ Hr).
  unfold Int.clamp_long, Int.min_long, Int.max_long.
  unfold Int.in_range, Int.min_int, Int.max_int in Hz.
  rewrite Z.min_r by lia. rewrite Z.max_r by lia.
  apply wrap_small. unfold Int.in_range, Int.min_int, Int.max_int. lia.
Qed.

Lemma atoi_fmt_d (z : Z) : Int.in_range z -> atoi (fmt_d z) = z.
Proof.
  intros Hz. rewrite <- (append_empty (fmt_d z)).
  apply atoi_fmt_d_app; [assumption|reflexivity].
Qed.

(** [atoi] on the numeral of any integer, followed by text without a
    leading digit. *)
Lemma atoi_trailing (z : Z) (r : string) :
  starts_with_digit r = false ->
  atoi (fmt_d z ++ r)%string = atoi (fmt_d z).
Proof.
  intros Hr. pose proof (strtol_fmt_d z EmptyString eq_refl) as E0.
  rewrite append_empty in E0.
  unfold atoi. rewrite E0, (strtol_fmt_d _ _ Hr). reflexivity.
Qed.

(** X12.  [atoi] stops at the first character that is not a digit.  For
    every integer [n] and every text [r] without a leading digit, [atoi]
    gives the same value on the decimal numeral of [n] followed by [r] as
    on the numeral alone ([n] itself when [n] is an [int]).  Let
    [-logstep], [-savestep], [-checkstep] or [-device] be read by the loop
    with such an argument.  For [-device], and for a step whose value is
    positive, [parse] returns the same value, object and messages as with
    the numeral alone.  For a step whose value is not positive, [parse]
    returns [false] both times with the same object; its only message,
    [invalid <flag> '<argument>'], quotes the argument as it was given. *)
Theorem trailing_text_ignored dv argv0 pre f n r post a1 l1 :
  In f [FLogStep; FSaveStep; FCheckStep; FDevice] ->
  starts_with_digit r = false ->
  scan dv pre Args_new [] = Done a1 l1 ->
  atoi (fmt_d n ++ r)%string = atoi (fmt_d n)
  /\ (Int.in_range n -> atoi (fmt_d n) = n)
  /\ (f = FDevice \/ 0 < atoi (fmt_d n) ->
      parse_new dv (argv0 :: pre ++ flag_name f :: (fmt_d n ++ r)%string :: post)
      = parse_new dv (argv0 :: pre ++ flag_name f :: fmt_d n :: post))
  /\ (f <> FDevice -> atoi (fmt_d n) <= 0 ->
      parse_new dv (argv0 :: pre ++ flag_name f :: (fmt_d n ++ r)%string :: post)
      = Some (mkOutcome false (store f (fmt_d n) a1)
                [("invalid " ++ flag_name f ++ " '" ++ (fmt_d n ++ r) ++ "'"
                  ++ String "010"%char EmptyString)%string])
      /\ parse_new dv (argv0 :: pre ++ flag_name f :: fmt_d n :: post)
         = Some (mkOutcome false (store f (fmt_d n) a1)
                   [("invalid " ++ flag_name f ++ " '" ++ fmt_d n ++ "'"
                     ++ String "010"%char EmptyString)%string])).
Proof.
  intros Hf Hr Hpre. pose proof (atoi_trailing n r Hr) as E.
  pose proof (scan_Done_run _ _ _ _ _ _ Hpre) as [_ ->].
  split; [exact E|]. split; [apply atoi_fmt_d|].
  unfold parse_new, parse. cbn [tl]. rewrite !(scan_app _ _ _ _ _ _ _ Hpre).
  cbn [In] in Hf.
  destruct Hf as [<-|[<-|[<-|[<-|[]]]]]; cbn [flag_name store];
    rewrite ?scan_logstep, ?scan_savestep, ?scan_checkstep, ?scan_device, ?E;
    (split; [intros [Hd|Hp]; [try discriminate Hd; reflexivity|]
            |intros Hnd Hle; try (exfalso; apply Hnd; reflexivity)]).
  all: try (apply Z.leb_gt in Hp; rewrite Hp; reflexivity).
  all: try reflexivity.
  all: apply Z.leb_le in Hle; rewrite Hle; split; reflexivity.
Qed.

Lemma trailing_text_ignored_witness :
  parse_new two_devices ["gpuowl"; "-legacy"; "-logstep"; "500k"; "-uid"; "u"]
  = parse_new two_devices ["gpuowl"; "-legacy"; "-logstep"; "500"; "-uid"; "u"]
  /\ parse_new two_devices ["gpuowl"; "-savestep"; "0k"; "-legacy"]
     = Some (mkOutcome false (set_saveStep 0 Args_new)
               [("invalid -savestep '0k'" ++ String "010"%char EmptyString)%string]).
Proof.
  split.
  - destruct (trailing_text_ignored two_devices "gpuowl" ["-legacy"] FLogStep
                500 "k" ["-uid"; "u"] (set_useLegacy true Args_new) []
                ltac:(cbn; tauto) eq_refl eq_refl) as (_ & _ & Hok & _).
    apply Hok. right. vm_compute. reflexivity.
  - destruct (trailing_text_ignored two_devices "gpuowl" [] FSaveStep
                0 "k" ["-legacy"] Args_new []
                ltac:(cbn; tauto) eq_refl eq_refl) as (_ & _ & _ & Hrej).
    apply Hrej; [discriminate|vm_compute; discriminate].
Defined.

(** ** The configuration line *)

#[local] Arguments fmt_d : simpl never.

(** X13.  The line that [logConfig] writes is [Config:] followed by the
    options of the object, each word after a space, and a newline:
    [-logstep], [-savestep] and [-checkstep] with their values always;
    [-uid] and [-cl] (its value between double quotes) only when their
    strings are not empty; [-supersafe], [-selftest], [-time kernels] and
    [-legacy] only when set.  [device] is not shown. *)
Theorem config_line_words (a : Args) :
  config_line a = ("Config:" ++ words (echo_options quoted a) ++ nl)%string.
Proof.
  destruct a as [cl u L S C d tk st ul sf].
  unfold config_line, echo_options, quoted.
  cbn [logStep saveStep checkStep uid clArgs safe selfTest timeKernels useLegacy].
  destruct (streq u EmptyString); destruct sf; destruct (streq cl EmptyString);
    destruct st; destruct tk; destruct ul;
    cbn [app words]; rewrite ?append_assoc; cbn [String.append];
    rewrite ?append_assoc; reflexivity.
Qed.

Lemma echo_run dv (a : Args) :
  int_fields a -> 0 < logStep a -> 0 < saveStep a -> 0 < checkStep a ->
  run dv (echo_options (fun s => s) a) Args_new (set_device (-1) a).
Proof.
  intros (HL & HS & HC & _) HLp HSp HCp.
  pose proof (atoi_fmt_d _ HL) as EL.
  pose proof (atoi_fmt_d _ HS) as ES.
  pose proof (atoi_fmt_d _ HC) as EC.
  destruct a as [cl u L S C d tk st ul sf].
  unfold echo_options.
  cbn [logStep saveStep checkStep uid clArgs safe selfTest timeKernels useLegacy] in *.
  cbn [app].
  eapply run_iter; [apply iter_logstep; rewrite EL; assumption|].
  eapply run_iter; [apply iter_savestep; rewrite ES; assumption|].
  eapply run_iter; [apply iter_checkstep; rewrite EC; assumption|].
  rewrite EL, ES, EC.
  destruct (streq u EmptyString) eqn:Eu;
    [apply String.eqb_eq in Eu; subst u|];
    cbn [app]; [|eapply run_iter; [apply iter_uid|]];
    (destruct sf; cbn [app]; [eapply run_iter; [apply iter_supersafe|]|]);
    (destruct (streq cl EmptyString) eqn:Ec;
     [apply String.eqb_eq in Ec; subst cl|];
     cbn [app]; [|eapply run_iter; [apply iter_cl|]]);
    (destruct st; cbn [app]; [eapply run_iter; [apply iter_selftest|]|]);
    (destruct tk; cbn [app]; [eapply run_iter; [apply iter_time|]|]);
    (destruct ul; cbn [app]; [eapply run_iter; [apply iter_legacy|]|]);
    apply run_nil.
Qed.

(** X14.  The object that a successful [parse] returns can be reproduced
    from the command line.  Take the options that [logConfig] prints for
    it, as arguments built from its fields ([echo_options], every value
    being one argument and the string of [-cl] being passed as it is,
    without the double quotes that the line puts around it): [-logstep],
    [-savestep], [-checkstep] with the decimal values, [-uid] and [-cl]
    with their strings when not empty, the boolean flags that are set.  On
    these arguments [parse] returns [true] with the same object, but for
    [device], which is -1, and logs the same configuration line and
    nothing else. *)
Theorem echo_round_trip dv argv argv0 o :
  parse_new dv argv = Some o -> returned o = true ->
  parse_new dv (argv0 :: echo_options (fun s => s) (object o))
  = Some (mkOutcome true (set_device (-1) (object o)) [config_line (object o)]).
Proof.
  intros H Ht. destruct (parse_true_inv _ _ _ H Ht) as (a & Hr & -> & _).
  pose proof (run_scanned _ _ _ _ Hr (scanned_new dv)) as Hsc.
  pose proof Hsc as (Hi & Hpos & _).
  pose proof (normalized_invariants dv a Hsc) as (_ & (HS & _) & (HC & _) & _).
  pose proof (normalized_int_fields a Hi Hpos) as Hin.
  assert (Hb : run dv (echo_options (fun s => s) (normalized a)) Args_new
                 (set_device (-1) (normalized a))).
  { apply echo_run; [assumption|exact Hpos| |];
      cbn [normalized logStep saveStep checkStep] in *; lia. }
  rewrite (parse_run dv argv0 _ _ Hb).
  change (normalized (set_device (-1) (normalized a)))
    with (set_device (-1) (normalized (normalized a))).
  rewrite (normalized_twice a Hpos).
  unfold success_log.
  change (normalized (set_device (-1) (normalized a)))
    with (set_device (-1) (normalized (normalized a))).
  rewrite (normalized_twice a Hpos).
  cbn [set_device normalized timeKernels logStep].
  destruct (timeKernels a); destruct (logStep a =? 1); reflexivity.
Qed.

Lemma echo_round_trip_witness :
  echo_options (fun s => s) sample_args
  = ["-logstep"; "3"; "-savestep"; "99"; "-checkstep"; "30";
     "-uid"; "alice/box1"; "-time"; "kernels"]
  /\ parse_new two_devices ("gpuowl" :: echo_options (fun s => s) sample_args)
     = Some (mkOutcome true (set_device (-1) sample_args)
               [config_line sample_args]).
Proof.
  split; [vm_compute; reflexivity|].
  exact (echo_round_trip two_devices sample_argv "gpuowl"
           (mkOutcome true sample_args [config_line sample_args])
           eq_refl eq_refl).
Defined.

(** ** The devices *)

Lemma scan_devices dv dv' args a l :
  ~ In "-h" args -> ~ In "--help" args -> ~ In "-device" args ->
  scan dv args a l = scan dv' args a l.
Proof.
  remember (List.length args) as n eqn:Hn.
  revert args a Hn. induction n as [n IH] using lt_wf_ind.
  intros [|arg rest] a Hn H1 H2 H3; [reflexivity|].
  cbn [In List.length] in *.
  assert (IHr : forall a, scan dv rest a l = scan dv' rest a l)
    by (intros b; apply (IH (List.length rest)); [lia|reflexivity|tauto..]).
  assert (IHr' : forall v rest' a, rest = v :: rest' ->
                   scan dv rest' a l = scan dv' rest' a l).
  { intros v rest' b ->. cbn [In List.length] in *.
    apply (IH (List.length rest')); [lia|reflexivity|tauto..]. }
  cbn [scan].
  rewrite (streq_neq arg "-h"), (streq_neq arg "--help"),
    (streq_neq arg "-device") by (intros ->; tauto).
  cbn [orb].
  repeat match goal with
         | |- (if ?c then _ else _) = _ => destruct c
         | |- match ?r with [] => _ | _ :: _ => _ end = _ =>
             destruct r as [|v rest'] eqn:Er
         end;
    try reflexivity; try apply IHr; eapply IHr'; reflexivity.
Qed.

(** X15.  The device enumeration matters only to [-h], [--help] and
    [-device]: on a command line without these three tokens, [parse]
    returns the same value, object and messages whatever devices are
    available. *)
Theorem devices_consulted dv dv' argv :
  ~ In "-h" (tl argv) -> ~ In "--help" (tl argv) -> ~ In "-device" (tl argv) ->
  parse_new dv argv = parse_new dv' argv.
Proof.
  intros H1 H2 H3. unfold parse_new, parse.
  rewrite (scan_devices dv dv' _ _ _ H1 H2 H3). reflexivity.
Qed.

Lemma devices_consulted_witness :
  parse_new two_devices ["gpuowl"; "-logstep"; "0"; "-legacy"]
  = parse_new many_devices ["gpuowl"; "-logstep"; "0"; "-legacy"].
Proof.
  apply devices_consulted; cbn; intuition discriminate.
Defined.

(** ** The command lines that [parse] accepts *)

Lemma valid_iter dv g :
  valid_option dv g -> forall a rest, exists a1, iter dv (g ++ rest) a rest a1.
Proof.
  intros Hg a rest. destruct Hg as [f v Hv| | | |]; cbn [app];
    try (eexists; constructor).
  destruct f; cbn [flag_name rejected] in *; eexists; constructor; lia.
Qed.

Lemma iter_valid dv args a rest a1 :
  iter dv args a rest a1 -> exists g, args = g ++ rest /\ valid_option dv g.
Proof.
  destruct 1.
  - exists [flag_name FLogStep; v]. split; [reflexivity|].
    constructor. cbn. lia.
  - exists [flag_name FSaveStep; v]. split; [reflexivity|].
    constructor. cbn. lia.
  - exists [flag_name FCheckStep; v]. split; [reflexivity|].
    constructor. cbn. lia.
  - exists [flag_name FUid; v]. split; [reflexivity|]. constructor. cbn. tauto.
  - exists ["-supersafe"]. split; [reflexivity|constructor].
  - exists [flag_name FCl; v]. split; [reflexivity|]. constructor. cbn. tauto.
  - exists ["-selftest"]. split; [reflexivity|constructor].
  - exists ["-time"; "kernels"]. split; [reflexivity|constructor].
  - exists ["-legacy"]. split; [reflexivity|constructor].
  - exists [flag_name FDevice; v]. split; [reflexivity|].
    constructor. cbn. lia.
Qed.

Lemma valid_run dv gs :
  Forall (valid_option dv) gs -> forall a, exists a', run dv (List.concat gs) a a'.
Proof.
  induction 1 as [|g gs Hg _ IH]; intros a; cbn [List.concat].
  - exists a. constructor.
  - destruct (valid_iter _ _ Hg a (List.concat gs)) as (a1 & Hi).
    destruct (IH a1) as (a' & Hr). exists a'. eauto with scan.
Qed.

Lemma run_valid dv args a a' :
  run dv args a a' ->
  exists gs, args = List.concat gs /\ Forall (valid_option dv) gs.
Proof.
  induction 1 as [a|args a rest a1 a' Hi _ (gs & -> & Hgs)].
  - exists []. split; [reflexivity|constructor].
  - destruct (iter_valid _ _ _ _ _ Hi) as (g & -> & Hg).
    exists (g :: gs). split; [reflexivity|constructor; assumption].
Qed.

(** X16.  [parse] returns [true] exactly on the command lines that are,
    after the program name, a sequence of well-formed options (possibly
    none): value flags each followed by an argument that passes its check,
    boolean flags, and [-time kernels]. *)
Theorem accepted_command_lines dv argv0 args :
  (exists o, parse_new dv (argv0 :: args) = Some o /\ returned o = true)
  <-> (exists gs, args = List.concat gs /\ Forall (valid_option dv) gs).
Proof.
  split.
  - intros (o & H & Ht). destruct (parse_true_inv _ _ _ H Ht) as (a & Hr & _).
    exact (run_valid _ _ _ _ Hr).
  - intros (gs & -> & Hgs). destruct (valid_run _ _ Hgs Args_new) as (a & Hr).
    eexists. split; [apply (parse_run _ _ _ _ Hr)|reflexivity].
Qed.
